(** * Review-hub audio generation: [generate_bark.py] and [generate_dia.py]

    Both scripts read a dialogue script, ask a text-to-speech model for the
    audio of every unit, concatenate the pieces with silence gaps, normalise
    the peak, and write a WAV file plus [timestamps.json].

    Conventions of the embedding:
    - audio samples and times are exact rationals ([Q]) standing for the
      floating-point values of the scripts;
    - [gapMs] is any number, a rational here ([Q]);
    - loading the model and reading the script succeed; [import soundfile],
      [sf.write] and opening [timestamps.json] may each fail;
    - the text-to-speech model is an oracle, indexed by the position of the
      unit it is called for, that raises, returns [None], or returns samples;
    - a run is a pure function from its inputs to what it printed, what it
      wrote, and how the process ended. *)

From Stdlib Require Import ZArith QArith Qabs Qminmax Lqa Lia List String Ascii.
From stdpp Require Import gmap strings list.
Import ListNotations.

Open Scope string_scope.
Open Scope list_scope.

(** ** Python built-ins used by the scripts *)

Module Py.

(** [str.lower()], on code points below 256. *)
Definition lower_char (c : ascii) : ascii :=
  let n := nat_of_ascii c in
  if ((65 <=? n) && (n <=? 90))%nat then ascii_of_nat (n + 32)
  else if ((192 <=? n) && (n <=? 222) && negb (n =? 215))%nat
       then ascii_of_nat (n + 32)
       else c.

Fixpoint lower (s : string) : string :=
  match s with
  | EmptyString => EmptyString
  | String c r => String (lower_char c) (lower r)
  end.

(** The characters [str.strip()] removes. *)
Definition is_space (c : ascii) : bool :=
  let n := nat_of_ascii c in
  ((9 <=? n) && (n <=? 13) || (28 <=? n) && (n <=? 32)
   || (n =? 133) || (n =? 160))%nat.

(** [not s.strip()]: the string holds white space only. *)
Fixpoint blank (s : string) : bool :=
  match s with
  | EmptyString => true
  | String c r => is_space c && blank r
  end.

(** Truth value of a string, and of an optional string ([None] is false). *)
Definition truthy (s : string) : bool :=
  match s with EmptyString => false | _ => true end.

Definition truthy_opt (o : option string) : bool :=
  match o with Some s => truthy s | None => false end.

(** [int(x)] on a number: truncation towards zero. *)
Definition int (x : Q) : Z := Z.quot (Qnum x) (Zpos (Qden x)).

(** *** [os.path] on POSIX *)

Definition is_slash (c : ascii) : bool := Ascii.eqb c "/"%char.

(** [(p[:i], p[i:])] for [i = p.rfind('/') + 1]. *)
Fixpoint split_at_last_slash (p : string) : string * string :=
  match p with
  | EmptyString => (EmptyString, EmptyString)
  | String c r =>
      let (h, t) := split_at_last_slash r in
      if is_slash c || truthy h then (String c h, t)
      else (EmptyString, String c t)
  end.

(** [s.rstrip('/')]. *)
Fixpoint rstrip_slash (s : string) : string :=
  match s with
  | EmptyString => EmptyString
  | String c r =>
      match rstrip_slash r with
      | EmptyString => if is_slash c then EmptyString else String c EmptyString
      | r' => String c r'
      end
  end.

(** [head == '/' * len(head)]. *)
Fixpoint all_slashes (h : string) : bool :=
  match h with
  | EmptyString => true
  | String c r => is_slash c && all_slashes r
  end.

Definition dirname (p : string) : string :=
  let head := fst (split_at_last_slash p) in
  if truthy head && negb (all_slashes head) then rstrip_slash head
  else head.

Definition basename (p : string) : string := snd (split_at_last_slash p).

Definition startswith_slash (s : string) : bool :=
  match s with String c _ => is_slash c | EmptyString => false end.

Fixpoint endswith_slash (s : string) : bool :=
  match s with
  | EmptyString => false
  | String c EmptyString => is_slash c
  | String _ r => endswith_slash r
  end.

(** ['/' not in s]. *)
Fixpoint no_slash (s : string) : bool :=
  match s with
  | EmptyString => true
  | String c r => negb (is_slash c) && no_slash r
  end.

(** [os.path.join(a, b)] with two arguments. *)
Definition join (a b : string) : string :=
  if startswith_slash b then b
  else if negb (truthy a) || endswith_slash a then String.append a b
  else String.append a (String "/" b).

End Py.

(** ** What both scripts share *)

(** One entry of [timestamps]. *)
Record timestamp := Timestamp {
  ts_sectionId : string;
  ts_startTime : Q;
  ts_endTime : Q
}.

(** One element of [all_audio].  The tag records which statement appended
    it: [Gap k] is [silence_gap] put in at the boundary between units
    [k - 1] and [k]; [Speech i a] is the audio [a] of unit [i]. *)
Inductive piece :=
| Gap (boundary : nat) (samples : list Q)
| Speech (unit : nat) (samples : list Q).

Definition samples_of (p : piece) : list Q :=
  match p with Gap _ a => a | Speech _ a => a end.

(** What a call of the model does. *)
Inductive synth :=
| Raises (e : string)
| NoAudio
| Samples (audio : list Q).

(** Lines of progress on stdout ([estRemainingSeconds] of the Bark script,
    a wall-clock estimate, is left out). *)
Inductive event :=
| Loading
| Generating (index : nat) (section_id : string)
| Saving
| Done.

(** Lines on stderr.  [Summary] holds the number of records and the clock
    value that the last line is formatted from; the code prints that value
    with one decimal, and the Bark script adds an average of wall-clock
    times, neither of which is modelled. *)
Inductive log :=
| ERROR_package_not_found
| ERROR_no_audio
| WARNING_no_audio (index : option nat) (section_id : string)
| WARNING_failed (index : option nat) (section_id : string) (e : string)
| Summary (sections : nat) (total : Q).

Inductive content :=
| Wav (samples : list Q) (rate : Z)
| Json (ts : list timestamp).

Inductive exn :=
| KeyError (key : string)
| ValueError (msg : string)
| ImportError (module : string)
| LibsndfileError (path : string)
| OSError (path : string).

(** What saving depends on: whether [import soundfile] succeeds, whether
    [sf.write] to a path succeeds, and whether a path can be opened for
    writing. *)
Record filesystem := Filesystem {
  soundfile_ok : bool;
  sf_write_ok : string -> bool;
  open_ok : string -> bool
}.

(** How the process ends. *)
Inductive status :=
| Returned
| SysExit (code : Z)
| Uncaught (e : exn).

(** The interpreter ends with status 1 on an exception nobody caught. *)
Definition exit_code (s : status) : Z :=
  match s with
  | Returned => 0
  | SysExit c => c
  | Uncaught _ => 1
  end.

(** What a run leaves: the lines on stdout and stderr, the files written,
    in the order of the calls that wrote them (a file counts once the call
    that writes it has completed), and how the process ended. *)
Record result := Result {
  stdout : list event;
  stderr : list log;
  files : list (string * content);
  status_of : status
}.

(** The accumulators of the main loop. *)
Record state := State {
  all_audio : list piece;
  timestamps : list timestamp;
  current_time : Q;
  current_section_id : option string;
  section_start_time : Q;
  out : list event;
  err : list log
}.

Definition initial (o : list event) : state :=
  {| all_audio := []; timestamps := []; current_time := 0%Q;
     current_section_id := None; section_start_time := 0%Q;
     out := o; err := [] |}.

Definition append_audio (p : piece) (st : state) : state :=
  {| all_audio := all_audio st ++ [p]; timestamps := timestamps st;
     current_time := current_time st;
     current_section_id := current_section_id st;
     section_start_time := section_start_time st;
     out := out st; err := err st |}.

Definition append_timestamp (r : timestamp) (st : state) : state :=
  {| all_audio := all_audio st; timestamps := timestamps st ++ [r];
     current_time := current_time st;
     current_section_id := current_section_id st;
     section_start_time := section_start_time st;
     out := out st; err := err st |}.

Definition advance (d : Q) (st : state) : state :=
  {| all_audio := all_audio st; timestamps := timestamps st;
     current_time := (current_time st + d)%Q;
     current_section_id := current_section_id st;
     section_start_time := section_start_time st;
     out := out st; err := err st |}.

Definition open_section (sid : string) (st : state) : state :=
  {| all_audio := all_audio st; timestamps := timestamps st;
     current_time := current_time st;
     current_section_id := Some sid;
     section_start_time := current_time st;
     out := out st; err := err st |}.

Definition emit_progress (e : event) (st : state) : state :=
  {| all_audio := all_audio st; timestamps := timestamps st;
     current_time := current_time st;
     current_section_id := current_section_id st;
     section_start_time := section_start_time st;
     out := out st ++ [e]; err := err st |}.

Definition print_stderr (l : log) (st : state) : state :=
  {| all_audio := all_audio st; timestamps := timestamps st;
     current_time := current_time st;
     current_section_id := current_section_id st;
     section_start_time := section_start_time st;
     out := out st; err := err st ++ [l] |}.

(** [np.zeros(n)] for [n >= 0]. *)
Definition zeros (n : Z) : list Q := repeat 0%Q (Z.to_nat n).

(** [len(audio) / sample_rate]. *)
Definition duration_of (sample_rate : Z) (audio : list Q) : Q :=
  (inject_Z (Z.of_nat (length audio)) / inject_Z sample_rate)%Q.

(** [np.concatenate(all_audio)]. *)
Definition concatenate (pieces : list piece) : list Q :=
  concat (map samples_of pieces).

(** [np.max(np.abs(combined))]; numpy raises on an empty array. *)
Definition max_abs (combined : list Q) : option Q :=
  match combined with
  | [] => None
  | x :: xs => Some (fold_left Qmax (map Qabs xs) (Qabs x))
  end.

(** [combined / max_val * 0.95]. *)
Definition scale (max_val : Q) (combined : list Q) : list Q :=
  map (fun x => (x / max_val * (95 # 100))%Q) combined.

Definition normalize (max_val : Q) (combined : list Q) : list Q :=
  if Qlt_le_dec 0%Q max_val then scale max_val combined else combined.

Definition timestamps_path (output_path : string) : string :=
  Py.join (Py.dirname output_path) "timestamps.json".

Definition finished (st : state) (fs : list (string * content)) (s : status)
  : result :=
  {| stdout := out st; stderr := err st; files := fs; status_of := s |}.

(** From [if not all_audio] to the end of [generate]; the same statements
    in both scripts.  An exception here is caught by nobody. *)
Definition save (D : filesystem) (sample_rate : Z) (output_path : string)
    (st : state) : result :=
  match all_audio st with
  | [] => finished (print_stderr ERROR_no_audio st) [] (SysExit 1)
  | _ :: _ =>
      let st := emit_progress Saving st in
      let combined := concatenate (all_audio st) in
      match max_abs combined with
      | None =>
          finished st []
            (Uncaught (ValueError "zero-size array to reduction operation maximum which has no identity"))
      | Some max_val =>
          let combined := normalize max_val combined in
          if negb (soundfile_ok D)
          then finished st [] (Uncaught (ImportError "soundfile"))
          else if negb (sf_write_ok D output_path)
          then finished st [] (Uncaught (LibsndfileError output_path))
          else
            let wav := (output_path, Wav combined sample_rate) in
            let ts_path := timestamps_path output_path in
            if negb (open_ok D ts_path)
            then finished st [wav] (Uncaught (OSError ts_path))
            else
              let st' := emit_progress Done st in
              let st' := print_stderr
                           (Summary (length (timestamps st'))
                              (current_time st')) st' in
              finished st' [wav; (ts_path, Json (timestamps st'))] Returned
      end
  end.

(** ** [generate_bark.py] *)

Module Bark.

Record segment := Segment {
  sectionId : option string;
  speakerPreset : option string;
  text : option string;
  direction : option string
}.

Record script := Script {
  segments : option (list segment);
  gapMs : option Q
}.

(** What the run depends on besides the script: whether [from bark import
    ...] succeeds, and what [generate_audio(text, history_prompt=preset)]
    does when called for segment [i]. *)
Record env := Env {
  import_ok : bool;
  generate_audio : nat -> string -> string -> synth;
  disk : filesystem
}.

(** [SAMPLE_RATE] of the bark package; the script notes its value
    ("24000 for Bark"). *)
Definition SAMPLE_RATE : Z := 24000.

Definition EMOTION_MAP : gmap string string :=
  list_to_map
    [ ("laughs", "[laughter]");
      ("laughter", "[laughter]");
      ("pauses", "");
      ("pause", "");
      ("sighs", "[sighs]");
      ("sigh", "[sighs]");
      ("gasps", "[gasps]");
      ("gasp", "[gasps]") ].

Definition process_text (text : string) (direction : option string)
  : string :=
  match direction with
  | Some d =>
      if Py.truthy d then
        let bark_token := default "" (EMOTION_MAP !! Py.lower d) in
        if Py.truthy bark_token
        then String.append bark_token (String.append " " text)
        else text
      else text
  | None => text
  end.

(** [direction and direction.lower() in ("pauses", "pause")]. *)
Definition is_pause (direction : option string) : bool :=
  match direction with
  | Some d =>
      Py.truthy d
      && (String.eqb (Py.lower d) "pauses" || String.eqb (Py.lower d) "pause")
  | None => false
  end.

Definition pause_duration : Q := 5 # 10.

Definition pause_samples : Z :=
  Py.int (inject_Z SAMPLE_RATE * pause_duration).

(** The section bookkeeping at the head of the loop body. *)
Definition track_section (gap_ms : Q) (silence_gap : list Q) (i : nat)
    (section_id : string) (st : state) : state :=
  if decide (current_section_id st = Some section_id) then st
  else
    let st :=
      match current_section_id st with
      | Some cur =>
          let st := append_timestamp
                      {| ts_sectionId := cur;
                         ts_startTime := section_start_time st;
                         ts_endTime := current_time st |} st in
          let st := append_audio (Gap i silence_gap) st in
          advance (gap_ms / 1000) st
      | None => st
      end in
    open_section section_id st.

(** How the [try] block ends before it looks at [audio]. *)
Inductive attempt :=
| Skipped
| Raised (e : string)
| Produced (audio : option (list Q)).

Definition attempt_of (s : synth) : attempt :=
  match s with
  | Raises e => Raised e
  | NoAudio => Produced None
  | Samples a => Produced (Some a)
  end.

Definition try_segment (E : env) (i : nat) (speaker_preset text : string)
    (direction : option string) : attempt :=
  let processed_text := process_text text direction in
  if Py.blank processed_text then Skipped
  else if is_pause direction then
    let audio := zeros pause_samples in
    if negb (Py.blank text) then
      match generate_audio E i processed_text speaker_preset with
      | Raises e => Raised e
      | NoAudio => Produced (Some audio)
      | Samples text_audio => Produced (Some (audio ++ text_audio))
      end
    else Produced (Some audio)
  else attempt_of (generate_audio E i processed_text speaker_preset).

(** One iteration of [for i, segment in enumerate(segments)]. *)
Definition step (E : env) (gap_ms : Q) (silence_gap : list Q) (i : nat)
    (seg : segment) (st : state) : state :=
  let section_id := default "unknown" (sectionId seg) in
  let speaker_preset := default "v2/en_speaker_0" (speakerPreset seg) in
  let text := default "" (text seg) in
  let direction := direction seg in
  let st := track_section gap_ms silence_gap i section_id st in
  let st := emit_progress (Generating i section_id) st in
  match try_segment E i speaker_preset text direction with
  | Skipped => st
  | Raised e => print_stderr (WARNING_failed (Some i) section_id e) st
  | Produced (Some (x :: audio)) =>
      let audio := x :: audio in
      let duration := duration_of SAMPLE_RATE audio in
      advance duration (append_audio (Speech i audio) st)
  | Produced _ => print_stderr (WARNING_no_audio (Some i) section_id) st
  end.

Fixpoint loop (E : env) (gap_ms : Q) (silence_gap : list Q) (i : nat)
    (segs : list segment) (st : state) : state :=
  match segs with
  | [] => st
  | seg :: rest =>
      loop E gap_ms silence_gap (S i) rest (step E gap_ms silence_gap i seg st)
  end.

(** "Close the last section". *)
Definition close_last_section (st : state) : state :=
  match current_section_id st with
  | Some cur =>
      append_timestamp
        {| ts_sectionId := cur;
           ts_startTime := section_start_time st;
           ts_endTime := current_time st |} st
  | None => st
  end.

(** The accumulators when the loop is over and the last section closed,
    for a run that gets that far. *)
Definition gap_ms_of (script_data : script) : Q :=
  default 400%Q (gapMs script_data).

Definition gap_samples_of (script_data : script) : Z :=
  Py.int (inject_Z SAMPLE_RATE * gap_ms_of script_data / 1000).

Definition silence_gap_of (script_data : script) : list Q :=
  zeros (gap_samples_of script_data).

Definition after_loop (E : env) (script_data : script) : state :=
  close_last_section
    (loop E (gap_ms_of script_data) (silence_gap_of script_data) 0
       (default [] (segments script_data))
       (emit_progress Loading (initial []))).

Definition generate (E : env) (script_data : script) (output_path : string)
  : result :=
  let st := emit_progress Loading (initial []) in
  if negb (import_ok E)
  then finished (print_stderr ERROR_package_not_found st) [] (SysExit 1)
  else
    let sample_rate := SAMPLE_RATE in
    let segs := default [] (segments script_data) in
    let gap_ms := default 400%Q (gapMs script_data) in
    let gap_samples := Py.int (inject_Z sample_rate * gap_ms / 1000) in
    if (gap_samples <? 0)%Z
    then finished st []
           (Uncaught (ValueError "negative dimensions are not allowed"))
    else
      let silence_gap := zeros gap_samples in
      let st := loop E gap_ms silence_gap 0 segs st in
      let st := close_last_section st in
      save (disk E) sample_rate output_path st.

End Bark.

(** ** [generate_dia.py] *)

Module Dia.

Record chunk := Chunk {
  sectionId : option string;
  text : option string
}.

Record script := Script {
  chunks : option (list chunk);
  gapMs : option Q
}.

(** Whether [from dia.model import Dia] succeeds, and what
    [model.generate(text)] does when called for chunk [i]. *)
Record env := Env {
  import_ok : bool;
  model_generate : nat -> string -> synth;
  disk : filesystem
}.

Definition sample_rate : Z := 44100.

(** The [try] block of the loop body. *)
Definition try_chunk (E : env) (gap_ms : Q) (silence_gap : list Q)
    (len_chunks i : nat) (section_id text : string) (st : state) : state :=
  match model_generate E i text with
  | Raises e => print_stderr (WARNING_failed None section_id e) st
  | Samples (x :: audio) =>
      let audio := x :: audio in
      let duration := duration_of sample_rate audio in
      let st := append_timestamp
                  {| ts_sectionId := section_id;
                     ts_startTime := current_time st;
                     ts_endTime := current_time st + duration |} st in
      let st := append_audio (Speech i audio) st in
      let st := advance duration st in
      if (Z.of_nat i <? Z.of_nat len_chunks - 1)%Z
      then advance (gap_ms / 1000)
             (append_audio (Gap (S i) silence_gap) st)
      else st
  | _ => print_stderr (WARNING_no_audio None section_id) st
  end.

(** One iteration of [for i, chunk in enumerate(chunks)]: the state to go
    on with, or the [KeyError] of [chunk["sectionId"]] or [chunk["text"]],
    raised outside the [try]. *)
Definition step (E : env) (gap_ms : Q) (silence_gap : list Q)
    (len_chunks i : nat) (c : chunk) (st : state) : state + exn :=
  match sectionId c with
  | None => inr (KeyError "sectionId")
  | Some section_id =>
      match text c with
      | None => inr (KeyError "text")
      | Some text =>
          let st := emit_progress (Generating i section_id) st in
          inl (try_chunk E gap_ms silence_gap len_chunks i section_id text st)
      end
  end.

(** The loop stops at the first exception, keeping what was printed. *)
Fixpoint loop (E : env) (gap_ms : Q) (silence_gap : list Q)
    (len_chunks i : nat) (cs : list chunk) (st : state)
  : state * option exn :=
  match cs with
  | [] => (st, None)
  | c :: rest =>
      match step E gap_ms silence_gap len_chunks i c st with
      | inl st' => loop E gap_ms silence_gap len_chunks (S i) rest st'
      | inr e => (st, Some e)
      end
  end.

(** The accumulators when the loop is over or was cut short, for a run
    that gets to the loop. *)
Definition gap_ms_of (script_data : script) : Q :=
  default 300%Q (gapMs script_data).

Definition gap_samples_of (script_data : script) : Z :=
  Py.int (inject_Z sample_rate * gap_ms_of script_data / 1000).

Definition silence_gap_of (script_data : script) : list Q :=
  zeros (gap_samples_of script_data).

Definition after_loop (E : env) (script_data : script)
  : state * option exn :=
  let cs := default [] (chunks script_data) in
  loop E (gap_ms_of script_data) (silence_gap_of script_data) (length cs) 0
    cs (emit_progress Loading (initial [])).

Definition generate (E : env) (script_data : script) (output_path : string)
  : result :=
  let st := emit_progress Loading (initial []) in
  if negb (import_ok E)
  then finished (print_stderr ERROR_package_not_found st) [] (SysExit 1)
  else
    let cs := default [] (chunks script_data) in
    let gap_ms := default 300%Q (gapMs script_data) in
    let gap_samples := Py.int (inject_Z sample_rate * gap_ms / 1000) in
    if (gap_samples <? 0)%Z
    then finished st []
           (Uncaught (ValueError "negative dimensions are not allowed"))
    else
      let silence_gap := zeros gap_samples in
      match loop E gap_ms silence_gap (length cs) 0 cs st with
      | (st, Some e) => finished st [] (Uncaught e)
      | (st, None) => save (disk E) sample_rate output_path st
      end.

End Dia.

(** ** Vocabulary of the properties *)

(** Two records with the same section and the same times as numbers. *)
Definition ts_eq (r r' : timestamp) : Prop :=
  ts_sectionId r = ts_sectionId r'
  /\ (ts_startTime r == ts_startTime r')%Q
  /\ (ts_endTime r == ts_endTime r')%Q.

(** The contiguous runs of a list of units.  A unit is its section id and
    the duration of the audio it added; a run is the section id its units
    share and the sum of their durations. *)
Fixpoint runs (units : list (string * Q)) : list (string * Q) :=
  match units with
  | [] => []
  | (s, d) :: rest =>
      match runs rest with
      | (s', total) :: rs =>
          if String.eqb s s' then (s, (d + total)%Q) :: rs
          else (s, d) :: (s', total) :: rs
      | [] => [(s, d)]
      end
  end.

(** One record per run: a run starts at [t], lasts its duration, and the
    next one starts a gap later. *)
Fixpoint run_records (gap t : Q) (rs : list (string * Q)) : list timestamp :=
  match rs with
  | [] => []
  | (s, total) :: rest =>
      {| ts_sectionId := s; ts_startTime := t; ts_endTime := (t + total)%Q |}
      :: run_records gap (t + total + gap)%Q rest
  end.

Definition one_record_per_run (gap_ms : Q) (units : list (string * Q))
    (ts : list timestamp) : Prop :=
  Forall2 ts_eq ts (run_records (gap_ms / 1000) 0 (runs units)).

(** Two units or runs with the same section and the same duration as a
    number. *)
Definition unit_eq (u u' : string * Q) : Prop :=
  fst u = fst u' /\ (snd u == snd u')%Q.

(** No two neighbours of the list have the same section id. *)
Fixpoint no_repeat (ids : list string) : Prop :=
  match ids with
  | s :: ((s' :: _) as rest) => s <> s' /\ no_repeat rest
  | _ => True
  end.

(** Every record ends no earlier than it starts, and no later than the next
    one starts. *)
Fixpoint non_overlapping (ts : list timestamp) : Prop :=
  match ts with
  | [] => True
  | r :: rest =>
      (ts_startTime r <= ts_endTime r)%Q
      /\ match rest with
         | [] => True
         | r' :: _ => (ts_endTime r <= ts_startTime r')%Q
         end
      /\ non_overlapping rest
  end.

(** The last record, if any, ends by [t]. *)
Fixpoint ends_by (t : Q) (ts : list timestamp) : Prop :=
  match ts with
  | [] => True
  | [r] => (ts_endTime r <= t)%Q
  | _ :: rest => ends_by t rest
  end.

(** What every iteration of the Bark loop keeps: the records so far do not
    overlap, the last one ends by the start of the open section, and the
    open section starts no later than now. *)
Definition bark_inv (st : state) : Prop :=
  non_overlapping (timestamps st)
  /\ ends_by (section_start_time st) (timestamps st)
  /\ (section_start_time st <= current_time st)%Q.

(** What every iteration of the Dia loop keeps. *)
Definition dia_inv (st : state) : Prop :=
  non_overlapping (timestamps st)
  /\ ends_by (current_time st) (timestamps st).

(** Gaps stand only where the section changes: a gap at the boundary before
    unit [k] means units [k - 1] and [k] are of different sections, and the
    audio of two consecutive units of one section is adjacent in the list.
    [sec k] is the section id of unit [k]. *)
Definition gaps_only_between_sections (sec : nat -> option string)
    (pieces : list piece) : Prop :=
  (forall k g, In (Gap k g) pieces ->
     (0 < k)%nat /\ sec (k - 1)%nat <> sec k)
  /\ (forall i a b,
        In (Speech i a) pieces -> In (Speech (S i) b) pieces ->
        sec i = sec (S i) ->
        exists l1 l2, pieces = l1 ++ Speech i a :: Speech (S i) b :: l2).

(** What the Bark loop keeps about [all_audio] once units [0 .. n - 1] are
    done: the two halves of [gaps_only_between_sections], every [Speech]
    so far is of a unit below [n], the audio of unit [n - 1] is the last
    piece, and the current section is that of unit [n - 1]. *)
Definition gap_inv (sec : nat -> option string) (n : nat) (st : state)
  : Prop :=
  gaps_only_between_sections sec (all_audio st)
  /\ (forall i a, In (Speech i a) (all_audio st) -> (i < n)%nat)
  /\ (forall m a, n = S m -> In (Speech m a) (all_audio st) ->
      exists l, all_audio st = l ++ [Speech m a])
  /\ match n with
     | O => current_section_id st = None
     | S m => current_section_id st = sec m /\ sec m <> None
     end.


(** The audio list is empty or starts with samples. *)
Definition headed (pieces : list piece) : Prop :=
  pieces = [] \/ exists i x a rest, pieces = Speech i (x :: a) :: rest.

(** The run ended without writing a file and with a code other than 0. *)
Definition aborted (r : result) : Prop :=
  exit_code (status_of r) <> 0%Z /\ files r = [].

(** The run is aborted exactly when it produced no audio. *)
Definition aborts_exactly_when_empty (r : result) (produced : list piece)
  : Prop :=
  aborted r <-> produced = [].

(** What peak normalisation makes of [combined]: scaled by the peak when
    the peak is positive and then within 0.95 in absolute value, left as it
    is otherwise. *)
Definition peak_normalized (combined written : list Q) : Prop :=
  exists max_val,
    max_abs combined = Some max_val
    /\ (Forall (fun x => x == 0)%Q combined -> written = combined)
    /\ (written <> combined -> (0 < max_val)%Q)
    /\ ((0 < max_val)%Q ->
        written = scale max_val combined
        /\ Forall (fun y => Qabs y <= 95 # 100)%Q written).

(** Nothing is in the way of saving to [output_path]: [soundfile] can be
    imported, the WAV file can be written, and [timestamps.json] next to it
    can be opened. *)
Definition can_save (D : filesystem) (output_path : string) : Prop :=
  soundfile_ok D = true
  /\ sf_write_ok D output_path = true
  /\ open_ok D (timestamps_path output_path) = true.

(** The two files of a run that got to the end. *)
Definition wrote (r : result) (output_path : string) (samples : list Q)
    (rate : Z) (ts : list timestamp) : Prop :=
  files r = [(output_path, Wav samples rate);
             (timestamps_path output_path, Json ts)].

(** The samples and the records a run wrote, read back from its files. *)
Definition written_samples (r : result) : list Q :=
  match files r with
  | (_, Wav w _) :: _ => w
  | _ => []
  end.

Definition written_timestamps (r : result) : list timestamp :=
  match files r with
  | [_; (_, Json ts)] => ts
  | _ => []
  end.

Module BarkSpec.
Import Bark.

Definition section_of (seg : segment) : string :=
  default "unknown" (sectionId seg).

(** How the [try] block of segment [i] ends. *)
Definition attempt_at (E : env) (i : nat) (seg : segment) : attempt :=
  try_segment E i (default "v2/en_speaker_0" (speakerPreset seg))
    (default "" (text seg)) (direction seg).

(** The samples segment [i] adds to [all_audio], if any. *)
Definition unit_audio (E : env) (i : nat) (seg : segment)
  : option (list Q) :=
  match attempt_at E i seg with
  | Produced (Some (x :: a)) => Some (x :: a)
  | _ => None
  end.

Definition unit_duration (E : env) (i : nat) (seg : segment) : Q :=
  match unit_audio E i seg with
  | Some a => duration_of SAMPLE_RATE a
  | None => 0
  end.

(** The segments from index [i] on, as units. *)
Fixpoint units (E : env) (i : nat) (segs : list segment)
  : list (string * Q) :=
  match segs with
  | [] => []
  | seg :: rest => (section_of seg, unit_duration E i seg) :: units E (S i) rest
  end.

Definition sec (segs : list segment) (k : nat) : option string :=
  section_of <$> segs !! k.

(** The pieces segment [i] adds: a gap if the section changes, then its
    audio if it has any. *)
Definition gap_part (silence_gap : list Q) (i : nat) (seg : segment)
    (st : state) : list piece :=
  match current_section_id st with
  | Some cur =>
      if decide (cur = section_of seg) then [] else [Gap i silence_gap]
  | None => []
  end.

Definition speech_part (E : env) (i : nat) (seg : segment) : list piece :=
  match unit_audio E i seg with
  | Some a => [Speech i a]
  | None => []
  end.

(** The pieces the loop adds for the segments from index [i] on, when the
    section open before them is [cur]: before the audio of a segment, a
    gap if a section is open and it is not the segment's. *)
Fixpoint layout (E : env) (silence_gap : list Q) (cur : option string)
    (i : nat) (segs : list segment) : list piece :=
  match segs with
  | [] => []
  | seg :: rest =>
      match cur with
      | Some c =>
          if decide (c = section_of seg) then [] else [Gap i silence_gap]
      | None => []
      end
      ++ speech_part E i seg
      ++ layout E silence_gap (Some (section_of seg)) (S i) rest
  end.

(** The segment with every default written out. *)
Definition fill (seg : segment) : segment :=
  {| sectionId := Some (section_of seg);
     speakerPreset := Some (default "v2/en_speaker_0" (speakerPreset seg));
     text := Some (default "" (text seg));
     direction := direction seg |}.

(** The script with every default written out. *)
Definition with_defaults (sd : script) : script :=
  {| segments := Some (map fill (default [] (segments sd)));
     gapMs := Some (default 400%Q (gapMs sd)) |}.

(** The segment with its direction taken away. *)
Definition without_direction (seg : segment) : segment :=
  {| sectionId := sectionId seg; speakerPreset := speakerPreset seg;
     text := text seg; direction := None |}.

(** The [Generating] lines of segments [i], [i + 1], ... *)
Fixpoint progress (i : nat) (segs : list segment) : list event :=
  match segs with
  | [] => []
  | seg :: rest => Generating i (section_of seg) :: progress (S i) rest
  end.

End BarkSpec.

Module DiaSpec.
Import Dia.

Definition well_formed (c : chunk) : Prop :=
  is_Some (sectionId c) /\ is_Some (text c).

Definition lacks_key (c : chunk) : Prop :=
  sectionId c = None \/ text c = None.

Definition section_of (c : chunk) : string := default "" (sectionId c).

(** The samples chunk [i] adds to [all_audio], if any. *)
Definition unit_audio (E : env) (i : nat) (c : chunk) : option (list Q) :=
  match model_generate E i (default "" (text c)) with
  | Samples (x :: a) => Some (x :: a)
  | _ => None
  end.

(** The chunks from index [i] on that produce audio, as units. *)
Fixpoint units (E : env) (i : nat) (cs : list chunk) : list (string * Q) :=
  match cs with
  | [] => []
  | c :: rest =>
      match unit_audio E i c with
      | Some a =>
          (section_of c, duration_of sample_rate a) :: units E (S i) rest
      | None => units E (S i) rest
      end
  end.

Definition sec (cs : list chunk) (k : nat) : option string :=
  section_of <$> cs !! k.

(** The pieces chunk [i] of [n] adds: its audio, and a gap after it
    unless it is the last chunk of the script. *)
Definition pieces_of (E : env) (silence_gap : list Q) (n i : nat)
    (c : chunk) : list piece :=
  match unit_audio E i c with
  | Some a =>
      Speech i a
      :: (if (Z.of_nat i <? Z.of_nat n - 1)%Z then [Gap (S i) silence_gap]
          else [])
  | None => []
  end.

Fixpoint layout (E : env) (silence_gap : list Q) (n i : nat)
    (cs : list chunk) : list piece :=
  match cs with
  | [] => []
  | c :: rest =>
      pieces_of E silence_gap n i c ++ layout E silence_gap n (S i) rest
  end.

Fixpoint progress (i : nat) (cs : list chunk) : list event :=
  match cs with
  | [] => []
  | c :: rest => Generating i (section_of c) :: progress (S i) rest
  end.

End DiaSpec.

(** ** Further vocabulary *)


(** A list of section ids with every run of equal neighbours reduced to
    one id. *)
Fixpoint compress (ids : list string) : list string :=
  match ids with
  | [] => []
  | s :: rest =>
      match compress rest with
      | s' :: r => if String.eqb s s' then s :: r else s :: s' :: r
      | [] => [s]
      end
  end.

(** The directions that stand for a Bark token, in lower case. *)
Definition token_directions : list string :=
  ["laughs"; "laughter"; "sighs"; "sigh"; "gasps"; "gasp"].

Definition has_token (direction : option string) : Prop :=
  exists d, direction = Some d /\ In (Py.lower d) token_directions.

Definition is_gap (p : piece) : Prop := exists k g, p = Gap k g.

(** ** Sample inputs *)

Module Sample.

Definition tone : list Q := [1 # 2; -(1 # 4)].

(** Every write succeeds. *)
Definition disk_ok : filesystem :=
  {| soundfile_ok := true; sf_write_ok := fun _ => true;
     open_ok := fun _ => true |}.

(** The WAV file is written; [timestamps.json] cannot be opened. *)
Definition disk_no_json : filesystem :=
  {| soundfile_ok := true; sf_write_ok := fun _ => true;
     open_ok := fun _ => false |}.

(** [soundfile] is not installed. *)
Definition disk_no_soundfile : filesystem :=
  {| soundfile_ok := false; sf_write_ok := fun _ => true;
     open_ok := fun _ => true |}.

Definition bark_ok : Bark.env :=
  {| Bark.import_ok := true;
     Bark.generate_audio := fun _ _ _ => Samples tone;
     Bark.disk := disk_ok |}.

Definition segment (sid txt : string) : Bark.segment :=
  {| Bark.sectionId := Some sid; Bark.speakerPreset := None;
     Bark.text := Some txt; Bark.direction := None |}.

Definition bark_script : Bark.script :=
  {| Bark.segments :=
       Some [segment "intro" "Hello."; segment "intro" "Welcome.";
             segment "body" "Now then."];
     Bark.gapMs := Some 1%Q |}.

Definition dia_ok : Dia.env :=
  {| Dia.import_ok := true;
     Dia.model_generate := fun _ _ => Samples tone;
     Dia.disk := disk_ok |}.

Definition chunk (sid txt : string) : Dia.chunk :=
  {| Dia.sectionId := Some sid; Dia.text := Some txt |}.

Definition dia_script : Dia.script :=
  {| Dia.chunks := Some [chunk "intro" "[S1] Hello."; chunk "body" "[S2] Hi."];
     Dia.gapMs := Some 1%Q |}.

(** Two chunks of one section. *)
Definition dia_same_section : Dia.script :=
  {| Dia.chunks := Some [chunk "intro" "[S1] Hello."; chunk "intro" "[S2] Hi."];
     Dia.gapMs := Some 1%Q |}.

(** The second chunk has no text. *)
Definition dia_missing_text : Dia.script :=
  {| Dia.chunks :=
       Some [chunk "intro" "[S1] Hello.";
             {| Dia.sectionId := Some "body"; Dia.text := None |}];
     Dia.gapMs := Some 1%Q |}.

(** Three chunks, for a model that fails on the second. *)
Definition dia_three : Dia.script :=
  {| Dia.chunks :=
       Some [chunk "intro" "[S1] Hello."; chunk "body" "[S2] Hi.";
             chunk "outro" "[S1] Bye."];
     Dia.gapMs := Some 1%Q |}.

Definition dia_flaky : Dia.env :=
  {| Dia.import_ok := true;
     Dia.model_generate :=
       fun i _ => if Nat.eqb i 1 then Raises "out of memory"
                  else Samples tone;
     Dia.disk := disk_ok |}.

(** Two segments of one section. *)
Definition bark_one_section : Bark.script :=
  {| Bark.segments :=
       Some [segment "intro" "Hello."; segment "intro" "Welcome."];
     Bark.gapMs := Some 1%Q |}.

(** The model fails on every segment. *)
Definition bark_failing : Bark.env :=
  {| Bark.import_ok := true;
     Bark.generate_audio := fun _ _ _ => Raises "out of memory";
     Bark.disk := disk_ok |}.

(** A gap of a hundredth of a millisecond, taken off the clock. *)
Definition bark_negative_gap : Bark.script :=
  {| Bark.segments :=
       Some [segment "intro" "Hello."; segment "body" "Now then."];
     Bark.gapMs := Some (-(1 # 100))%Q |}.

(** A segment without any field, one with its text only, and a full one;
    no gapMs. *)
Definition bark_bare : Bark.script :=
  {| Bark.segments :=
       Some [ {| Bark.sectionId := None; Bark.speakerPreset := None;
                 Bark.text := None; Bark.direction := None |};
              {| Bark.sectionId := None; Bark.speakerPreset := None;
                 Bark.text := Some "Hello."; Bark.direction := None |};
              segment "body" "Now then." ];
     Bark.gapMs := None |}.

(** A pause with nothing to say after it. *)
Definition bark_blank_pause : Bark.script :=
  {| Bark.segments :=
       Some [ {| Bark.sectionId := Some "intro"; Bark.speakerPreset := None;
                 Bark.text := Some ""; Bark.direction := Some "pause" |} ];
     Bark.gapMs := Some 1%Q |}.

End Sample.

(** * Properties *)

(** ** Paths *)

Section Paths.

Local Open Scope string_scope.

Lemma append_nil t : "" +:+ t = t.
Proof. reflexivity. Qed.

Lemma append_cons c r t : String c r +:+ t = String c (r +:+ t).
Proof. reflexivity. Qed.

Lemma append_assoc a b c : (a +:+ b) +:+ c = a +:+ (b +:+ c).
Proof.
  induction a as [|x a IH]; [reflexivity|].
  rewrite !append_cons. now rewrite IH.
Qed.

Lemma split_no_slash t :
  Py.no_slash t = true -> Py.split_at_last_slash t = ("", t).
Proof.
  induction t as [|c r IH]; simpl; [reflexivity|].
  intros [Hc Hr]%andb_prop. rewrite (IH Hr).
  destruct (Py.is_slash c); [discriminate|reflexivity].
Qed.

Lemma split_after_slash h t :
  Py.endswith_slash h = true -> Py.no_slash t = true ->
  Py.split_at_last_slash (h +:+ t) = (h, t).
Proof.
  intros Hh Ht. induction h as [|c r IH]; [discriminate|].
  rewrite append_cons. destruct r as [|c' r'].
  - rewrite append_nil. simpl in *.
    rewrite (split_no_slash _ Ht), Hh. reflexivity.
  - cbn [Py.split_at_last_slash]. rewrite IH by exact Hh.
    rewrite orb_true_r. reflexivity.
Qed.

Lemma endswith_app_slash d : Py.endswith_slash (d +:+ "/") = true.
Proof.
  induction d as [|c r IH]; [reflexivity|].
  rewrite append_cons. destruct r as [|c' r']; [reflexivity|].
  rewrite append_cons in *. exact IH.
Qed.

Lemma all_slashes_endswith h :
  Py.truthy h = true -> Py.all_slashes h = true -> Py.endswith_slash h = true.
Proof.
  induction h as [|c r IH]; [discriminate|].
  intros _ [Hc Hr]%andb_prop. destruct r; [exact Hc|].
  apply IH; [reflexivity|exact Hr].
Qed.

Lemma rstrip_not_endswith h : Py.endswith_slash (Py.rstrip_slash h) = false.
Proof.
  induction h as [|c r IH]; [reflexivity|]. simpl.
  destruct (Py.rstrip_slash r) as [|c' r'] eqn:E.
  - destruct (Py.is_slash c) eqn:Hc; simpl; [reflexivity|exact Hc].
  - exact IH.
Qed.

Lemma rstrip_truthy h :
  Py.all_slashes h = false -> Py.truthy (Py.rstrip_slash h) = true.
Proof.
  induction h as [|c r IH]; [discriminate|]. simpl.
  destruct (Py.rstrip_slash r) eqn:E; [|reflexivity].
  destruct (Py.is_slash c); [|reflexivity].
  simpl. intros H. specialize (IH H). discriminate.
Qed.

Lemma rstrip_app_slash d :
  Py.truthy d = true -> Py.endswith_slash d = false ->
  Py.rstrip_slash (d +:+ "/") = d /\ Py.all_slashes (d +:+ "/") = false.
Proof.
  induction d as [|c r IH]; [discriminate|]. intros _ He.
  rewrite append_cons. destruct r as [|c' r'].
  - rewrite append_nil. simpl in *. rewrite He. split; reflexivity.
  - destruct (IH eq_refl He) as [IH1 IH2].
    cbn [Py.rstrip_slash Py.all_slashes]. rewrite IH1, IH2.
    split; [reflexivity|apply andb_false_r].
Qed.

(** The directory and the name of [join(dirname(p), name)]. *)
Lemma dirname_join_dirname (p name : string) :
  Py.no_slash name = true -> Py.truthy name = true ->
  Py.dirname (Py.join (Py.dirname p) name) = Py.dirname p
  /\ Py.basename (Py.join (Py.dirname p) name) = name.
Proof.
  intros Hn Ht.
  assert (Hs : Py.startswith_slash name = false).
  { destruct name as [|c r]; [reflexivity|]. simpl in *.
    apply andb_prop in Hn as [Hc _]. now destruct (Py.is_slash c). }
  assert (Hsplit : Py.split_at_last_slash (Py.join (Py.dirname p) name)
      = (if Py.truthy (Py.dirname p)
            && negb (Py.endswith_slash (Py.dirname p))
         then Py.dirname p +:+ "/" else Py.dirname p, name)).
  { unfold Py.join. rewrite Hs.
    destruct (Py.truthy (Py.dirname p)) eqn:Hd; simpl.
    - destruct (Py.endswith_slash (Py.dirname p)) eqn:He; simpl.
      + now apply split_after_slash.
      + change (String "/" name) with ("/" +:+ name).
        rewrite <- append_assoc.
        apply split_after_slash; [apply endswith_app_slash|exact Hn].
    - destruct (Py.dirname p); [|discriminate].
      rewrite append_nil. now apply split_no_slash. }
  unfold Py.basename. unfold Py.dirname at 1. rewrite Hsplit. simpl.
  split; [|reflexivity].
  unfold Py.dirname.
  set (h := fst (Py.split_at_last_slash p)).
  destruct (Py.truthy h) eqn:Hh; simpl.
  - destruct (Py.all_slashes h) eqn:Ha; simpl.
    + rewrite Hh, (all_slashes_endswith h Hh Ha). simpl.
      rewrite Hh, Ha. reflexivity.
    + rewrite (rstrip_truthy h Ha), rstrip_not_endswith. simpl.
      destruct (rstrip_app_slash (Py.rstrip_slash h)
                  (rstrip_truthy h Ha) (rstrip_not_endswith h)) as [-> ->].
      assert (Py.truthy (Py.rstrip_slash h +:+ "/") = true) as ->.
      { destruct (Py.rstrip_slash h); reflexivity. }
      reflexivity.
  - rewrite Hh. simpl. rewrite Hh. reflexivity.
Qed.

End Paths.

(** ** Numbers *)

Section Numbers.


Lemma int_nonneg x : (0 <= x)%Q -> (0 <= Py.int x)%Z.
Proof.
  destruct x as [n d]. unfold Py.int, Qle. cbn [Qnum Qden].
  rewrite Z.mul_1_r. intros H. apply Z.quot_pos; lia.
Qed.


Lemma gap_scaled_nonneg sr g :
  (0 <= sr)%Z -> (0 <= g)%Q -> (0 <= inject_Z sr * g / 1000)%Q.
Proof.
  intros Hsr Hg. apply Qle_shift_div_l; [reflexivity|].
  rewrite Qmult_0_l. apply Qmult_le_0_compat; [|exact Hg].
  change 0%Q with (inject_Z 0). now rewrite <- Zle_Qle.
Qed.

(** A gap that is not negative has a number of samples that is not
    negative. *)
Lemma gap_samples_nonneg sr g :
  (0 <= sr)%Z -> (0 <= g)%Q -> (0 <= Py.int (inject_Z sr * g / 1000))%Z.
Proof. intros Hsr Hg. now apply int_nonneg, gap_scaled_nonneg. Qed.

Lemma gap_seconds_nonneg g : (0 <= g)%Q -> (0 <= g / 1000)%Q.
Proof.
  intros Hg. apply Qle_shift_div_l; [reflexivity|].
  now rewrite Qmult_0_l.
Qed.

Lemma bark_gap_samples_nonneg sd :
  (0 <= Bark.gap_ms_of sd)%Q -> (0 <= Bark.gap_samples_of sd)%Z.
Proof.
  intros H. apply gap_samples_nonneg; [unfold Bark.SAMPLE_RATE; lia|exact H].
Qed.

Lemma dia_gap_samples_nonneg sd :
  (0 <= Dia.gap_ms_of sd)%Q -> (0 <= Dia.gap_samples_of sd)%Z.
Proof.
  intros H. apply gap_samples_nonneg; [unfold Dia.sample_rate; lia|exact H].
Qed.



Lemma duration_nonneg sr a : (0 < sr)%Z -> (0 <= duration_of sr a)%Q.
Proof.
  intros Hsr. unfold duration_of. apply Qle_shift_div_l.
  - change 0%Q with (inject_Z 0). now rewrite <- Zlt_Qlt.
  - rewrite Qmult_0_l. change 0%Q with (inject_Z 0).
    rewrite <- Zle_Qle. lia.
Qed.

Lemma fold_max_upper xs a :
  (a <= fold_left Qmax xs a)%Q
  /\ Forall (fun y => y <= fold_left Qmax xs a)%Q xs.
Proof.
  revert a. induction xs as [|x xs IH]; intros a; simpl.
  - split; [apply Qle_refl|constructor].
  - destruct (IH (Qmax a x)) as [H1 H2]. split.
    + eapply Qle_trans; [apply Q.le_max_l|exact H1].
    + constructor; [|exact H2].
      eapply Qle_trans; [apply Q.le_max_r|exact H1].
Qed.

Lemma fold_max_lub xs a b :
  (a <= b)%Q -> Forall (fun y => y <= b)%Q xs ->
  (fold_left Qmax xs a <= b)%Q.
Proof.
  revert a. induction xs as [|x xs IH]; intros a Ha Hxs; simpl.
  - exact Ha.
  - inversion Hxs; subst. apply IH; [|assumption].
    now apply Q.max_lub.
Qed.

Lemma max_abs_upper combined m :
  max_abs combined = Some m -> Forall (fun x => Qabs x <= m)%Q combined.
Proof.
  destruct combined as [|x xs]; [discriminate|]. intros [= <-].
  destruct (fold_max_upper (map Qabs xs) (Qabs x)) as [H1 H2].
  constructor; [exact H1|].
  rewrite Forall_map in H2. exact H2.
Qed.

Lemma max_abs_silent combined m :
  max_abs combined = Some m -> Forall (fun x => x == 0)%Q combined ->
  (m <= 0)%Q.
Proof.
  destruct combined as [|x xs]; [discriminate|]. intros [= <-] H.
  inversion H as [|? ? Hx Hxs]; subst. apply fold_max_lub.
  - rewrite Hx. apply Qle_refl.
  - rewrite Forall_map. eapply Forall_impl; [exact Hxs|].
    intros y Hy. cbv beta in Hy |- *. rewrite Hy. apply Qle_refl.
Qed.

Lemma scale_bounded combined m :
  (0 < m)%Q -> Forall (fun x => Qabs x <= m)%Q combined ->
  Forall (fun y => Qabs y <= 95 # 100)%Q (scale m combined).
Proof.
  intros Hm H. unfold scale. rewrite Forall_map.
  eapply Forall_impl; [exact H|]. intros x Hx. cbv beta in Hx |- *.
  apply Qabs_Qle_condition in Hx as [Hlo Hhi].
  assert (H1 : (x / m <= 1)%Q)
    by (apply Qle_shift_div_r; [exact Hm|lra]).
  assert (H2 : (-(1) <= x / m)%Q)
    by (apply Qle_shift_div_l; [exact Hm|lra]).
  apply Qabs_Qle_condition. split; lra.
Qed.

Lemma normalize_spec combined m :
  max_abs combined = Some m ->
  peak_normalized combined (normalize m combined).
Proof.
  intros Hmax. exists m. split; [exact Hmax|]. unfold normalize.
  destruct (Qlt_le_dec 0 m) as [Hpos|Hle].
  - split; [|split].
    + intros Hz. pose proof (max_abs_silent _ _ Hmax Hz). lra.
    + intros _. exact Hpos.
    + intros _. split; [reflexivity|].
      apply scale_bounded; [exact Hpos|]. now apply max_abs_upper.
  - split; [|split].
    + reflexivity.
    + intros Hne. now contradiction Hne.
    + intros Hpos. lra.
Qed.

End Numbers.

(** ** The end of a run *)

Section Saving.

Variables (D : filesystem) (sample_rate : Z) (output_path : string).

Lemma save_unfold st :
  save D sample_rate output_path st
  = match all_audio st with
    | [] => finished (print_stderr ERROR_no_audio st) [] (SysExit 1)
    | _ :: _ =>
        match max_abs (concatenate (all_audio st)) with
        | None =>
            finished (emit_progress Saving st) []
              (Uncaught (ValueError "zero-size array to reduction operation maximum which has no identity"))
        | Some max_val =>
            if negb (soundfile_ok D)
            then finished (emit_progress Saving st) []
                   (Uncaught (ImportError "soundfile"))
            else if negb (sf_write_ok D output_path)
            then finished (emit_progress Saving st) []
                   (Uncaught (LibsndfileError output_path))
            else if negb (open_ok D (timestamps_path output_path))
            then finished (emit_progress Saving st)
                   [(output_path,
                     Wav (normalize max_val (concatenate (all_audio st)))
                       sample_rate)]
                   (Uncaught (OSError (timestamps_path output_path)))
            else
              finished
                (print_stderr
                   (Summary (length (timestamps st)) (current_time st))
                   (emit_progress Done (emit_progress Saving st)))
                [(output_path,
                  Wav (normalize max_val (concatenate (all_audio st)))
                    sample_rate);
                 (timestamps_path output_path, Json (timestamps st))]
                Returned
        end
    end.
Proof. destruct st as [[|p ps] ? ? ? ? ? ?]; reflexivity. Qed.

Lemma save_empty st :
  all_audio st = [] ->
  save D sample_rate output_path st
  = finished (print_stderr ERROR_no_audio st) [] (SysExit 1).
Proof. rewrite save_unfold. now intros ->. Qed.

(** With samples to write and nothing in the way, the run returns with
    both files. *)
Lemma save_samples st :
  can_save D output_path ->
  concatenate (all_audio st) <> [] ->
  exists written,
    peak_normalized (concatenate (all_audio st)) written
    /\ status_of (save D sample_rate output_path st) = Returned
    /\ wrote (save D sample_rate output_path st) output_path written
         sample_rate (timestamps st).
Proof.
  intros (H1 & H2 & H3) Hne. rewrite save_unfold, H1, H2, H3.
  destruct (max_abs (concatenate (all_audio st))) as [m|] eqn:Hm.
  - exists (normalize m (concatenate (all_audio st))).
    split; [now apply normalize_spec|].
    destruct (all_audio st); [now contradiction Hne|].
    split; reflexivity.
  - destruct (concatenate (all_audio st));
      [now contradiction Hne|discriminate].
Qed.

(** A run that returns wrote exactly the two files, and nothing was in the
    way. *)
Lemma save_returned st :
  status_of (save D sample_rate output_path st) = Returned ->
  can_save D output_path
  /\ exists written,
       peak_normalized (concatenate (all_audio st)) written
       /\ wrote (save D sample_rate output_path st) output_path written
            sample_rate (timestamps st).
Proof.
  rewrite save_unfold. unfold can_save.
  destruct (all_audio st) as [|p ps]; [discriminate|].
  destruct (max_abs (concatenate (p :: ps))) as [m|] eqn:Hm; [|discriminate].
  destruct (soundfile_ok D); [|discriminate].
  destruct (sf_write_ok D output_path); [|discriminate].
  destruct (open_ok D (timestamps_path output_path)); [|discriminate].
  intros _. split; [auto|].
  exists (normalize m (concatenate (p :: ps))).
  split; [now apply normalize_spec|reflexivity].
Qed.

(** A run that does not return ends with code 1. *)
Lemma save_status st :
  status_of (save D sample_rate output_path st) = Returned
  \/ exit_code (status_of (save D sample_rate output_path st)) = 1%Z.
Proof.
  rewrite save_unfold. destruct (all_audio st) as [|p ps]; [now right|].
  destruct (max_abs _); [|now right].
  destruct (soundfile_ok D); [|now right].
  destruct (sf_write_ok D output_path); [|now right].
  destruct (open_ok D (timestamps_path output_path)); [now left|now right].
Qed.

(** What is on disk after [save]: nothing; the WAV file alone, when
    [timestamps.json] could not be opened; or both files, when it
    returns. *)
Lemma save_files st :
  files (save D sample_rate output_path st) = []
  \/ (open_ok D (timestamps_path output_path) = false
      /\ (exists e, status_of (save D sample_rate output_path st)
                    = Uncaught e)
      /\ exists written,
           peak_normalized (concatenate (all_audio st)) written
           /\ files (save D sample_rate output_path st)
              = [(output_path, Wav written sample_rate)])
  \/ status_of (save D sample_rate output_path st) = Returned.
Proof.
  rewrite save_unfold. destruct (all_audio st) as [|p ps]; [now left|].
  destruct (max_abs _) as [m|] eqn:Hm; [|now left].
  destruct (soundfile_ok D); [|now left].
  destruct (sf_write_ok D output_path); [|now left].
  destruct (open_ok D (timestamps_path output_path)); [now right; right|].
  right; left. split; [reflexivity|]. split; [eexists; reflexivity|].
  eexists. split; [apply normalize_spec; exact Hm|reflexivity].
Qed.

(** Both files are there only after a run that returns. *)
Lemma save_wrote st w r ts :
  wrote (save D sample_rate output_path st) output_path w r ts ->
  status_of (save D sample_rate output_path st) = Returned.
Proof.
  unfold wrote. destruct (save_files st) as [H|[(_ & _ & w' & _ & H)|H]];
    [rewrite H; discriminate|rewrite H; discriminate|auto].
Qed.

Lemma save_stdout st :
  exists l, stdout (save D sample_rate output_path st) = out st ++ l.
Proof.
  rewrite save_unfold. destruct (all_audio st) as [|p ps].
  - exists []. simpl. now rewrite app_nil_r.
  - destruct (max_abs _); [|exists [Saving]; reflexivity].
    destruct (negb (soundfile_ok D)); [exists [Saving]; reflexivity|].
    destruct (negb (sf_write_ok D output_path));
      [exists [Saving]; reflexivity|].
    destruct (negb (open_ok D (timestamps_path output_path)));
      [exists [Saving]; reflexivity|].
    exists [Saving; Done]. simpl. now rewrite <- app_assoc.
Qed.

Lemma save_stderr st :
  exists l, stderr (save D sample_rate output_path st) = err st ++ l.
Proof.
  rewrite save_unfold. destruct (all_audio st) as [|p ps].
  - eexists. reflexivity.
  - destruct (max_abs _); [|exists []; simpl; now rewrite app_nil_r].
    destruct (negb (soundfile_ok D));
      [exists []; simpl; now rewrite app_nil_r|].
    destruct (negb (sf_write_ok D output_path));
      [exists []; simpl; now rewrite app_nil_r|].
    destruct (negb (open_ok D (timestamps_path output_path)));
      [exists []; simpl; now rewrite app_nil_r|].
    eexists. reflexivity.
Qed.

End Saving.

(** ** The shape of a run *)

Section Runs.

Lemma bark_generate_unfold E sd output_path :
  Bark.generate E sd output_path
  = if negb (Bark.import_ok E)
    then finished
           (print_stderr ERROR_package_not_found
              (emit_progress Loading (initial [])))
           [] (SysExit 1)
    else if (Bark.gap_samples_of sd <? 0)%Z
    then finished (emit_progress Loading (initial [])) []
           (Uncaught (ValueError "negative dimensions are not allowed"))
    else save (Bark.disk E) Bark.SAMPLE_RATE output_path
           (Bark.after_loop E sd).
Proof. reflexivity. Qed.

Lemma dia_generate_unfold E sd output_path :
  Dia.generate E sd output_path
  = if negb (Dia.import_ok E)
    then finished
           (print_stderr ERROR_package_not_found
              (emit_progress Loading (initial [])))
           [] (SysExit 1)
    else if (Dia.gap_samples_of sd <? 0)%Z
    then finished (emit_progress Loading (initial [])) []
           (Uncaught (ValueError "negative dimensions are not allowed"))
    else match Dia.after_loop E sd with
         | (st, Some e) => finished st [] (Uncaught e)
         | (st, None) => save (Dia.disk E) Dia.sample_rate output_path st
         end.
Proof. reflexivity. Qed.

(** A Bark run that returns came through the loop and [save]. *)
Lemma bark_returned E sd output_path :
  status_of (Bark.generate E sd output_path) = Returned ->
  Bark.import_ok E = true /\ (0 <= Bark.gap_samples_of sd)%Z
  /\ Bark.generate E sd output_path
     = save (Bark.disk E) Bark.SAMPLE_RATE output_path
         (Bark.after_loop E sd).
Proof.
  rewrite bark_generate_unfold.
  destruct (Bark.import_ok E); [|discriminate]. simpl.
  destruct (Bark.gap_samples_of sd <? 0)%Z eqn:Hg; [discriminate|].
  apply Z.ltb_ge in Hg. auto.
Qed.

Lemma dia_returned E sd output_path :
  status_of (Dia.generate E sd output_path) = Returned ->
  Dia.import_ok E = true /\ (0 <= Dia.gap_samples_of sd)%Z
  /\ snd (Dia.after_loop E sd) = None
  /\ Dia.generate E sd output_path
     = save (Dia.disk E) Dia.sample_rate output_path
         (fst (Dia.after_loop E sd)).
Proof.
  rewrite dia_generate_unfold.
  destruct (Dia.import_ok E); [|discriminate]. simpl.
  destruct (Dia.gap_samples_of sd <? 0)%Z eqn:Hg; [discriminate|].
  apply Z.ltb_ge in Hg.
  destruct (Dia.after_loop E sd) as [st [e|]]; [discriminate|]. auto.
Qed.

(** Both files are there only at the end of a run that returns. *)
Lemma bark_files E sd output_path w r ts :
  wrote (Bark.generate E sd output_path) output_path w r ts ->
  status_of (Bark.generate E sd output_path) = Returned.
Proof.
  rewrite bark_generate_unfold.
  destruct (negb (Bark.import_ok E)); [discriminate|].
  destruct (Bark.gap_samples_of sd <? 0)%Z; [discriminate|].
  apply save_wrote.
Qed.

Lemma dia_files E sd output_path w r ts :
  wrote (Dia.generate E sd output_path) output_path w r ts ->
  status_of (Dia.generate E sd output_path) = Returned.
Proof.
  rewrite dia_generate_unfold.
  destruct (negb (Dia.import_ok E)); [discriminate|].
  destruct (Dia.gap_samples_of sd <? 0)%Z; [discriminate|].
  destruct (Dia.after_loop E sd) as [st [e|]]; [discriminate|].
  apply save_wrote.
Qed.

End Runs.

(** ** Where the files go, and what the samples look like *)

(** C8. A run of either script that returns writes the timestamp index to
    the one file [timestamps.json] in the directory of the output path:
    its name is [timestamps.json] and its directory is that of the output
    path, whatever the name or extension of the output file. *)
Theorem timestamps_next_to_output (output_path : string) :
  (forall E sd,
     status_of (Bark.generate E sd output_path) = Returned ->
     exists p ts,
       In (p, Json ts) (files (Bark.generate E sd output_path))
       /\ (forall p' ts',
             In (p', Json ts') (files (Bark.generate E sd output_path)) ->
             p' = p)
       /\ Py.basename p = "timestamps.json"
       /\ Py.dirname p = Py.dirname output_path)
  /\ (forall E sd,
        status_of (Dia.generate E sd output_path) = Returned ->
        exists p ts,
          In (p, Json ts) (files (Dia.generate E sd output_path))
          /\ (forall p' ts',
                In (p', Json ts') (files (Dia.generate E sd output_path)) ->
                p' = p)
          /\ Py.basename p = "timestamps.json"
          /\ Py.dirname p = Py.dirname output_path).
Proof.
  assert (Hpath : Py.dirname (timestamps_path output_path)
                  = Py.dirname output_path
                  /\ Py.basename (timestamps_path output_path)
                     = "timestamps.json")
    by (apply dirname_join_dirname; reflexivity).
  destruct Hpath as [Hd Hb].
  assert (Hsave : forall D sr st,
    status_of (save D sr output_path st) = Returned ->
    exists p ts,
      In (p, Json ts) (files (save D sr output_path st))
      /\ (forall p' ts',
            In (p', Json ts') (files (save D sr output_path st)) -> p' = p)
      /\ Py.basename p = "timestamps.json"
      /\ Py.dirname p = Py.dirname output_path).
  { intros D sr st Hret.
    destruct (save_returned D sr output_path st Hret) as (_ & w & _ & Hw).
    exists (timestamps_path output_path), (timestamps st).
    unfold wrote in Hw. rewrite Hw. repeat split; auto.
    - right. left. reflexivity.
    - intros p' ts' [H|[H|[]]]; [discriminate|congruence]. }
  split; intros E sd Hret.
  - destruct (bark_returned E sd output_path Hret) as (_ & _ & Heq).
    rewrite Heq in *. now apply Hsave.
  - destruct (dia_returned E sd output_path Hret) as (_ & _ & _ & Heq).
    rewrite Heq in *. now apply Hsave.
Qed.

Lemma timestamps_next_to_output_witness :
  status_of (Bark.generate Sample.bark_ok Sample.bark_script "out/talk.v2.wav")
  = Returned
  /\ exists p ts,
       In (p, Json ts)
         (files (Bark.generate Sample.bark_ok Sample.bark_script
                   "out/talk.v2.wav"))
       /\ (forall p' ts',
             In (p', Json ts')
               (files (Bark.generate Sample.bark_ok Sample.bark_script
                         "out/talk.v2.wav")) ->
             p' = p)
       /\ Py.basename p = "timestamps.json"
       /\ Py.dirname p = Py.dirname "out/talk.v2.wav".
Proof.
  split; [vm_compute; reflexivity|].
  apply (proj1 (timestamps_next_to_output "out/talk.v2.wav")).
  vm_compute; reflexivity.
Defined.

(** C9. In both scripts the samples written are the concatenated audio
    passed through the guarded normalisation: the division by the peak is
    done only for a peak above zero, an all-zero buffer is written as it
    is, and after a division every sample is within 0.95 in absolute
    value. *)
Theorem normalization_guarded (output_path : string) :
  (forall E sd,
     status_of (Bark.generate E sd output_path) = Returned ->
     exists written ts,
       wrote (Bark.generate E sd output_path) output_path written
         Bark.SAMPLE_RATE ts
       /\ peak_normalized (concatenate (all_audio (Bark.after_loop E sd)))
            written)
  /\ (forall E sd,
        status_of (Dia.generate E sd output_path) = Returned ->
        exists written ts,
          wrote (Dia.generate E sd output_path) output_path written
            Dia.sample_rate ts
          /\ peak_normalized
               (concatenate (all_audio (fst (Dia.after_loop E sd))))
               written).
Proof.
  split; intros E sd Hret.
  - destruct (bark_returned E sd output_path Hret) as (_ & _ & Heq).
    rewrite Heq in *.
    destruct (save_returned _ _ _ _ Hret) as (_ & w & Hn & Hw).
    now exists w, (timestamps (Bark.after_loop E sd)).
  - destruct (dia_returned E sd output_path Hret) as (_ & _ & _ & Heq).
    rewrite Heq in *.
    destruct (save_returned _ _ _ _ Hret) as (_ & w & Hn & Hw).
    now exists w, (timestamps (fst (Dia.after_loop E sd))).
Qed.

Lemma normalization_guarded_witness :
  status_of (Dia.generate Sample.dia_ok Sample.dia_script "talk.wav")
  = Returned
  /\ exists written ts,
       wrote (Dia.generate Sample.dia_ok Sample.dia_script "talk.wav")
         "talk.wav" written Dia.sample_rate ts
       /\ peak_normalized
            (concatenate
               (all_audio (fst (Dia.after_loop Sample.dia_ok
                                  Sample.dia_script))))
            written.
Proof.
  split; [vm_compute; reflexivity|].
  apply (proj2 (normalization_guarded "talk.wav")).
  vm_compute; reflexivity.
Defined.

(** ** Directions and pauses in the Bark script *)

Section Directions.

Import Bark BarkSpec.

Lemma lower_truthy d s : Py.lower d = s -> Py.truthy s = true ->
  Py.truthy d = true.
Proof. destruct d; [intros <-; discriminate|reflexivity]. Qed.

Lemma process_text_token text d token :
  EMOTION_MAP !! Py.lower d = Some token -> Py.truthy token = true ->
  Py.truthy d = true ->
  process_text text (Some d) = token +:+ " " +:+ text.
Proof.
  intros Hl Ht Hd. unfold process_text. rewrite Hd, Hl. simpl.
  now rewrite Ht.
Qed.

Lemma process_text_unknown text d :
  EMOTION_MAP !! Py.lower d = None -> process_text text (Some d) = text.
Proof.
  intros Hl. unfold process_text. rewrite Hl. simpl.
  now destruct (Py.truthy d).
Qed.

Lemma is_pause_lower d :
  is_pause (Some d) = true ->
  Py.truthy d = true /\ (Py.lower d = "pauses" \/ Py.lower d = "pause").
Proof.
  unfold is_pause. intros [Hd H]%andb_prop. split; [exact Hd|].
  apply orb_prop in H as [H|H]; apply String.eqb_eq in H; auto.
Qed.

Lemma process_text_pause text d :
  is_pause (Some d) = true -> process_text text (Some d) = text.
Proof.
  intros [Hd [H|H]]%is_pause_lower; unfold process_text;
    rewrite Hd, H; reflexivity.
Qed.

Lemma unknown_not_pause d :
  EMOTION_MAP !! Py.lower d = None -> is_pause (Some d) = false.
Proof.
  intros Hl. destruct (is_pause (Some d)) eqn:Hp; [|reflexivity].
  apply is_pause_lower in Hp as [_ [H|H]]; rewrite H in Hl; discriminate.
Qed.

(** A pause with text after it: the silence comes first, and counts. *)
Lemma pause_prepends_silence E i preset text d a :
  is_pause (Some d) = true -> Py.blank text = false ->
  generate_audio E i text preset = Samples a ->
  try_segment E i preset text (Some d)
  = Produced (Some (zeros 12000 ++ a))
  /\ (duration_of SAMPLE_RATE (zeros 12000 ++ a)
      == (1 # 2) + duration_of SAMPLE_RATE a)%Q.
Proof.
  intros Hp Hb Ha. split.
  - unfold try_segment. rewrite (process_text_pause _ _ Hp), Hb, Hp, Ha.
    reflexivity.
  - unfold duration_of, SAMPLE_RATE. rewrite length_app.
    unfold zeros at 1. rewrite repeat_length.
    rewrite Nat2Z.inj_add, inject_Z_plus, Z2Nat.id by lia. field.
Qed.

(** A pause with nothing after it leaves the [try] block at [continue]. *)
Lemma pause_blank_text_skipped E i preset text d :
  is_pause (Some d) = true -> Py.blank text = true ->
  try_segment E i preset text (Some d) = Skipped.
Proof.
  intros Hp Hb. unfold try_segment.
  now rewrite (process_text_pause _ _ Hp), Hb.
Qed.

End Directions.

(** C7. [process_text] puts the Bark token of a recognised direction other
    than a pause, whatever its case, before the text with one space; for a
    direction that is not a key of the emotion map it returns the text as
    it is, and the loop body then does and prints exactly what it does
    for the segment without a direction. *)
Theorem process_text_directions (text d : string) :
  (Py.lower d = "laughs" \/ Py.lower d = "laughter" ->
   Bark.process_text text (Some d) = "[laughter] " +:+ text)
  /\ (Py.lower d = "sighs" \/ Py.lower d = "sigh" ->
      Bark.process_text text (Some d) = "[sighs] " +:+ text)
  /\ (Py.lower d = "gasps" \/ Py.lower d = "gasp" ->
      Bark.process_text text (Some d) = "[gasps] " +:+ text)
  /\ (Bark.EMOTION_MAP !! Py.lower d = None ->
      Bark.process_text text (Some d) = text
      /\ forall E gap_ms silence_gap i seg st,
           Bark.direction seg = Some d ->
           Bark.step E gap_ms silence_gap i seg st
           = Bark.step E gap_ms silence_gap i
               (BarkSpec.without_direction seg) st).
Proof.
  repeat split.
  - intros [H|H];
      (rewrite (process_text_token text d "[laughter]");
       [reflexivity|now rewrite H|reflexivity
       |now apply (lower_truthy d _ H)]).
  - intros [H|H];
      (rewrite (process_text_token text d "[sighs]");
       [reflexivity|now rewrite H|reflexivity
       |now apply (lower_truthy d _ H)]).
  - intros [H|H];
      (rewrite (process_text_token text d "[gasps]");
       [reflexivity|now rewrite H|reflexivity
       |now apply (lower_truthy d _ H)]).
  - now apply process_text_unknown.
  - intros E gap_ms silence_gap i seg st Hd.
    unfold Bark.step. cbn [BarkSpec.without_direction Bark.sectionId
      Bark.speakerPreset Bark.text Bark.direction]. rewrite Hd.
    unfold Bark.try_segment.
    rewrite (process_text_unknown _ _ H), (unknown_not_pause _ H).
    reflexivity.
Qed.

Lemma process_text_directions_witness :
  (Py.lower "LAUGHS" = "laughs" \/ Py.lower "LAUGHS" = "laughter")
  /\ Bark.process_text "Oh no." (Some "LAUGHS") = "[laughter] Oh no."
  /\ Bark.EMOTION_MAP !! Py.lower "Whispers" = None
  /\ Bark.process_text "Oh no." (Some "Whispers") = "Oh no.".
Proof.
  split; [left; reflexivity|]. split.
  - apply (proj1 (process_text_directions "Oh no." "LAUGHS")).
    left; reflexivity.
  - split; [reflexivity|].
    apply (proj2 (proj2 (proj2
             (process_text_directions "Oh no." "Whispers")))).
    reflexivity.
Defined.

(** C6, at its failing input.  A segment with direction "pause" and empty
    text is dropped at the blank-text test before the pause is looked at:
    the run of a script made of that one segment produces no audio at all
    and exits with 1, where the 500 ms of silence were to be emitted. *)
Theorem blank_pause_emits_nothing :
  Bark.generate Sample.bark_ok Sample.bark_blank_pause "talk.wav"
  = {| stdout := [Loading; Generating 0 "intro"];
       stderr := [ERROR_no_audio];
       files := [];
       status_of := SysExit 1 |}.
Proof. vm_compute. reflexivity. Qed.

(** ** Missing fields *)

Section MissingFields.

Lemma dia_step_key_error E gap_ms silence_gap n i c st :
  DiaSpec.lacks_key c ->
  exists k, Dia.step E gap_ms silence_gap n i c st = inr (KeyError k).
Proof.
  unfold Dia.step. intros [H|H].
  - rewrite H. now exists "sectionId".
  - rewrite H. destruct (Dia.sectionId c); eauto.
Qed.

Lemma dia_step_raises E gap_ms silence_gap n i c st e :
  Dia.step E gap_ms silence_gap n i c st = inr e ->
  exists k, e = KeyError k.
Proof.
  unfold Dia.step. destruct (Dia.sectionId c); [|intros [= <-]; eauto].
  destruct (Dia.text c); [discriminate|intros [= <-]; eauto].
Qed.

Lemma dia_step_well_formed E gap_ms silence_gap n i c st :
  DiaSpec.well_formed c ->
  Dia.step E gap_ms silence_gap n i c st
  = inl (Dia.try_chunk E gap_ms silence_gap n i (DiaSpec.section_of c)
           (default "" (Dia.text c))
           (emit_progress (Generating i (DiaSpec.section_of c)) st)).
Proof.
  intros [[s Hs] [t Ht]]. unfold Dia.step, DiaSpec.section_of.
  now rewrite Hs, Ht.
Qed.

Lemma dia_loop_key_error E gap_ms silence_gap n cs :
  forall i st,
    Exists DiaSpec.lacks_key cs ->
    exists st' k,
      Dia.loop E gap_ms silence_gap n i cs st = (st', Some (KeyError k)).
Proof.
  induction cs as [|c cs IH]; intros i st Hex; [inversion Hex|].
  cbn [Dia.loop].
  destruct (Dia.step E gap_ms silence_gap n i c st) as [st'|e] eqn:Hstep.
  - apply IH. inversion Hex as [? ? Hc|]; subst; [|assumption].
    destruct (dia_step_key_error E gap_ms silence_gap n i c st Hc) as [k Hk].
    congruence.
  - destruct (dia_step_raises _ _ _ _ _ _ _ _ Hstep) as [k ->]. eauto.
Qed.

Lemma dia_loop_well_formed E gap_ms silence_gap n cs :
  forall i st,
    Forall DiaSpec.well_formed cs ->
    snd (Dia.loop E gap_ms silence_gap n i cs st) = None.
Proof.
  induction cs as [|c cs IH]; intros i st Hwf; [reflexivity|].
  inversion Hwf; subst. cbn [Dia.loop].
  rewrite dia_step_well_formed by assumption. now apply IH.
Qed.

Lemma bark_loop_fill E gap_ms silence_gap segs :
  forall i st,
    Bark.loop E gap_ms silence_gap i (map BarkSpec.fill segs) st
    = Bark.loop E gap_ms silence_gap i segs st.
Proof.
  induction segs as [|seg segs IH]; intros i st; [reflexivity|].
  cbn [map Bark.loop]. rewrite IH. reflexivity.
Qed.

Lemma bark_no_key_error E sd output_path k :
  status_of (Bark.generate E sd output_path) <> Uncaught (KeyError k).
Proof.
  rewrite bark_generate_unfold.
  destruct (negb (Bark.import_ok E)); [discriminate|].
  destruct (Bark.gap_samples_of sd <? 0)%Z; [discriminate|].
  rewrite save_unfold.
  destruct (all_audio _); [discriminate|].
  destruct (max_abs _); [|discriminate].
  destruct (negb (soundfile_ok _)); [discriminate|].
  destruct (negb (sf_write_ok _ _)); [discriminate|].
  destruct (negb (open_ok _ _)); discriminate.
Qed.

End MissingFields.

(** ** What the loops print *)

Section BarkLoop.

Import Bark BarkSpec.

Variables (E : env) (gap_ms : Q) (silence_gap : list Q).

Lemma bark_step_unfold i seg st :
  step E gap_ms silence_gap i seg st
  = let sid := section_of seg in
    let st1 := emit_progress (Generating i sid)
                 (track_section gap_ms silence_gap i sid st) in
    match attempt_at E i seg with
    | Skipped => st1
    | Raised e => print_stderr (WARNING_failed (Some i) sid e) st1
    | Produced (Some (x :: a)) =>
        advance (duration_of SAMPLE_RATE (x :: a))
          (append_audio (Speech i (x :: a)) st1)
    | Produced _ => print_stderr (WARNING_no_audio (Some i) sid) st1
    end.
Proof. reflexivity. Qed.

Lemma track_section_cases i sid st :
  (current_section_id st = Some sid
   /\ track_section gap_ms silence_gap i sid st = st)
  \/ (current_section_id st = None
      /\ track_section gap_ms silence_gap i sid st = open_section sid st)
  \/ (exists cur,
        current_section_id st = Some cur /\ cur <> sid
        /\ track_section gap_ms silence_gap i sid st
           = open_section sid
               (advance (gap_ms / 1000)
                  (append_audio (Gap i silence_gap)
                     (append_timestamp
                        {| ts_sectionId := cur;
                           ts_startTime := section_start_time st;
                           ts_endTime := current_time st |} st)))).
Proof.
  unfold track_section.
  destruct (decide (current_section_id st = Some sid)) as [Heq|Hne];
    [now left|right].
  destruct (current_section_id st) as [cur|]; [right|now left].
  exists cur. repeat split; congruence.
Qed.

Lemma track_section_prints i sid st :
  out (track_section gap_ms silence_gap i sid st) = out st
  /\ err (track_section gap_ms silence_gap i sid st) = err st.
Proof.
  destruct (track_section_cases i sid st)
    as [[_ ->]|[[_ ->]|(cur & _ & _ & ->)]]; split; reflexivity.
Qed.

Lemma bark_step_out i seg st :
  out (step E gap_ms silence_gap i seg st)
  = out st ++ [Generating i (section_of seg)].
Proof.
  rewrite bark_step_unfold. cbv zeta.
  destruct (track_section_prints i (section_of seg) st) as [Ho _].
  destruct (attempt_at E i seg) as [|e|[[|x a]|]]; simpl; now rewrite Ho.
Qed.

Lemma bark_step_err i seg st :
  exists l, err (step E gap_ms silence_gap i seg st) = err st ++ l.
Proof.
  rewrite bark_step_unfold. cbv zeta.
  destruct (track_section_prints i (section_of seg) st) as [_ He].
  destruct (attempt_at E i seg) as [|e|[[|x a]|]]; simpl; rewrite He;
    try (eexists; reflexivity); exists []; now rewrite app_nil_r.
Qed.

Lemma bark_step_warns i seg st e :
  attempt_at E i seg = Raised e ->
  In (WARNING_failed (Some i) (section_of seg) e)
    (err (step E gap_ms silence_gap i seg st)).
Proof.
  intros H. rewrite bark_step_unfold. cbv zeta. rewrite H. simpl.
  apply in_or_app. right. now left.
Qed.

Lemma bark_loop_out segs :
  forall i st,
    out (loop E gap_ms silence_gap i segs st) = out st ++ progress i segs.
Proof.
  induction segs as [|seg segs IH]; intros i st; simpl.
  - now rewrite app_nil_r.
  - rewrite IH, bark_step_out, <- app_assoc. reflexivity.
Qed.

Lemma bark_loop_err segs :
  forall i st,
    exists l, err (loop E gap_ms silence_gap i segs st) = err st ++ l.
Proof.
  induction segs as [|seg segs IH]; intros i st; simpl.
  - exists []. now rewrite app_nil_r.
  - destruct (IH (S i) (step E gap_ms silence_gap i seg st)) as [l ->].
    destruct (bark_step_err i seg st) as [l' ->].
    exists (l' ++ l). now rewrite app_assoc.
Qed.

Lemma bark_loop_warns segs :
  forall i st k seg e,
    segs !! k = Some seg -> attempt_at E (i + k) seg = Raised e ->
    In (WARNING_failed (Some (i + k)) (section_of seg) e)
      (err (loop E gap_ms silence_gap i segs st)).
Proof.
  induction segs as [|s segs IH]; intros i st k seg e Hk Ha;
    [discriminate|].
  destruct k as [|k]; simpl in Hk |- *.
  - injection Hk as ->. rewrite Nat.add_0_r in *.
    destruct (bark_loop_err segs (S i) (step E gap_ms silence_gap i seg st))
      as [l ->].
    apply in_or_app. left. now apply bark_step_warns.
  - replace (i + S k)%nat with (S i + k)%nat in * by lia.
    now apply IH.
Qed.

Lemma close_last_section_prints st :
  out (close_last_section st) = out st
  /\ err (close_last_section st) = err st
  /\ all_audio (close_last_section st) = all_audio st.
Proof.
  unfold close_last_section.
  destruct (current_section_id st); repeat split; reflexivity.
Qed.

End BarkLoop.

Section DiaLoop.

Import Dia DiaSpec.

Variables (E : env) (gap_ms : Q) (silence_gap : list Q) (n : nat).

Lemma headed_concatenate pieces :
  headed pieces -> pieces <> [] -> concatenate pieces <> [].
Proof.
  intros [->|(i & x & a & rest & ->)] H; [now contradiction H|].
  discriminate.
Qed.

Lemma headed_app pieces p :
  headed pieces -> pieces <> [] -> headed (pieces ++ p).
Proof.
  intros [->|(i & x & a & rest & ->)] H; [now contradiction H|].
  right. now exists i, x, a, (rest ++ p).
Qed.

Lemma dia_try_chunk_view i sid txt st :
  let st' := try_chunk E gap_ms silence_gap n i sid txt st in
  out st' = out st
  /\ (exists l, err st' = err st ++ l)
  /\ (forall e, model_generate E i txt = Raises e ->
        In (WARNING_failed None sid e) (err st'))
  /\ (headed (all_audio st) -> headed (all_audio st')).
Proof.
  unfold try_chunk.
  destruct (model_generate E i txt) as [e| |[|x a]]; cbv zeta.
  - repeat split; try (eexists; reflexivity); [|auto].
    intros e' [= <-]. simpl. apply in_or_app. right. now left.
  - repeat split; try (eexists; reflexivity); [discriminate|auto].
  - repeat split; try (eexists; reflexivity); [discriminate|auto].
  - assert (Hh : forall p, headed (all_audio st) ->
              headed ((all_audio st ++ [Speech i (x :: a)]) ++ p)).
    { intros p [->|H].
      - right. now exists i, x, a, p.
      - apply headed_app; [apply headed_app; [now right|]|].
        + destruct H as (? & ? & ? & ? & ->). discriminate.
        + now destruct (all_audio st). }
    destruct (Z.of_nat i <? Z.of_nat n - 1)%Z; simpl;
      (repeat split;
       [exists []; now rewrite app_nil_r|discriminate|]).
    + intros H. rewrite <- app_assoc.
      specialize (Hh [Gap (S i) silence_gap] H).
      now rewrite <- app_assoc in Hh.
    + intros H. specialize (Hh [] H). now rewrite app_nil_r in Hh.
Qed.

Lemma dia_loop_view cs :
  forall i st,
    Forall well_formed cs ->
    let st' := fst (loop E gap_ms silence_gap n i cs st) in
    out st' = out st ++ progress i cs
    /\ (exists l, err st' = err st ++ l)
    /\ (forall k c e,
          cs !! k = Some c ->
          model_generate E (i + k) (default "" (text c)) = Raises e ->
          In (WARNING_failed None (section_of c) e) (err st'))
    /\ (headed (all_audio st) -> headed (all_audio st')).
Proof.
  induction cs as [|c cs IH]; intros i st Hwf; cbv zeta.
  - simpl. rewrite app_nil_r. repeat split; [|discriminate|auto].
    exists []. now rewrite app_nil_r.
  - inversion Hwf as [|? ? Hc Hcs]; subst. cbn [loop].
    rewrite dia_step_well_formed by exact Hc.
    set (st0 := emit_progress (Generating i (section_of c)) st).
    destruct (dia_try_chunk_view i (section_of c) (default "" (text c)) st0)
      as (Ho & [l He] & Hw & Hh).
    destruct (IH (S i)
                (try_chunk E gap_ms silence_gap n i (section_of c)
                   (default "" (text c)) st0) Hcs)
      as (Ho' & [l' He'] & Hw' & Hh').
    repeat split.
    + rewrite Ho', Ho. simpl. now rewrite <- app_assoc.
    + exists (l ++ l'). rewrite He', He. simpl. now rewrite app_assoc.
    + intros [|k] c' e Hk Hr; simpl in Hk.
      * injection Hk as ->. rewrite Nat.add_0_r in Hr.
        rewrite He'. apply in_or_app. left. now apply Hw.
      * replace (i + S k)%nat with (S i + k)%nat in Hr by lia.
        now apply (Hw' k).
    + intros H. apply Hh', Hh. exact H.
Qed.

End DiaLoop.

(** ** Failures and exit codes *)

Section Outcomes.

Variable output_path : string.

Lemma aborted_not_returned r :
  aborted r -> status_of r <> Returned.
Proof. intros [H _] Hr. rewrite Hr in H. now apply H. Qed.

Lemma save_outcome D sr st :
  (all_audio st = [] ->
   aborted (save D sr output_path st)
   /\ status_of (save D sr output_path st) = SysExit 1
   /\ stderr (save D sr output_path st) = err st ++ [ERROR_no_audio])
  /\ (concatenate (all_audio st) <> [] -> can_save D output_path ->
      status_of (save D sr output_path st) = Returned
      /\ exists w,
           wrote (save D sr output_path st) output_path w sr (timestamps st)).
Proof.
  split.
  - intros H. rewrite save_empty by exact H.
    repeat split. discriminate.
  - intros H Hd.
    destruct (save_samples D sr output_path st Hd H) as (w & _ & Hs & Hw).
    split; [exact Hs|now exists w].
Qed.

(** Without the means to save, [save] ends with code 1 and without the
    timestamp file. *)
Lemma save_blocked D sr st :
  ~ can_save D output_path ->
  exit_code (status_of (save D sr output_path st)) = 1%Z
  /\ forall w r ts, ~ wrote (save D sr output_path st) output_path w r ts.
Proof.
  intros Hno.
  assert (Hnr : status_of (save D sr output_path st) <> Returned).
  { intros Hret. apply Hno. now apply save_returned in Hret. }
  split.
  - now destruct (save_status D sr output_path st).
  - intros w r ts Hw. apply Hnr. eapply save_wrote; eauto.
Qed.

Lemma bark_run E sd :
  Bark.import_ok E = true -> (0 <= Bark.gap_samples_of sd)%Z ->
  Bark.generate E sd output_path
  = save (Bark.disk E) Bark.SAMPLE_RATE output_path (Bark.after_loop E sd).
Proof.
  intros Hi Hg. rewrite bark_generate_unfold, Hi. simpl.
  apply Z.ltb_ge in Hg. now rewrite Hg.
Qed.

Lemma dia_run E sd :
  Dia.import_ok E = true -> (0 <= Dia.gap_samples_of sd)%Z ->
  Forall DiaSpec.well_formed (default [] (Dia.chunks sd)) ->
  snd (Dia.after_loop E sd) = None
  /\ Dia.generate E sd output_path
     = save (Dia.disk E) Dia.sample_rate output_path
         (fst (Dia.after_loop E sd)).
Proof.
  intros Hi Hg Hwf. rewrite dia_generate_unfold, Hi. simpl.
  apply Z.ltb_ge in Hg. rewrite Hg.
  pose proof (dia_loop_well_formed E (Dia.gap_ms_of sd)
                (Dia.silence_gap_of sd)
                (length (default [] (Dia.chunks sd)))
                (default [] (Dia.chunks sd)) 0
                (emit_progress Loading (initial [])) Hwf) as Hn.
  fold (Dia.after_loop E sd) in Hn.
  destruct (Dia.after_loop E sd) as [st o]. simpl in Hn. subst o.
  split; reflexivity.
Qed.

Lemma bark_after_loop_prints E sd :
  out (Bark.after_loop E sd)
  = Loading :: BarkSpec.progress 0 (default [] (Bark.segments sd))
  /\ forall i seg e,
       default [] (Bark.segments sd) !! i = Some seg ->
       BarkSpec.attempt_at E i seg = Bark.Raised e ->
       In (WARNING_failed (Some i) (BarkSpec.section_of seg) e)
         (err (Bark.after_loop E sd)).
Proof.
  unfold Bark.after_loop.
  set (st := Bark.loop _ _ _ _ _ _).
  destruct (close_last_section_prints st) as (-> & -> & _).
  subst st. split.
  - now rewrite bark_loop_out.
  - intros i seg e Hi He.
    now apply (bark_loop_warns E _ _ _ 0 _ i seg e).
Qed.


End Outcomes.

(** C4, as the code has it.  A unit whose synthesis raises gets its warning
    on stderr, and every unit is announced on stdout in document order
    whatever failed before it.  Once the package is imported, the gap has
    no negative number of samples and (Dia) every chunk has its two keys,
    the run exits with 1 before writing any file when the audio list is
    empty after the loop; when the list holds at least one sample it writes
    both files and returns, provided [soundfile] can be imported and both
    files can be written, and otherwise ends with code 1 short of the
    timestamp file.  In the Dia script a list that is not empty always
    holds a sample, so there, when nothing is in the way of saving, the run
    is aborted exactly when the list is empty. *)
Theorem failed_units_are_skipped (output_path : string) :
  (forall E sd,
     Bark.import_ok E = true -> (0 <= Bark.gap_samples_of sd)%Z ->
     let segs := default [] (Bark.segments sd) in
     let r := Bark.generate E sd output_path in
     let produced := all_audio (Bark.after_loop E sd) in
     (forall i seg e,
        segs !! i = Some seg ->
        BarkSpec.attempt_at E i seg = Bark.Raised e ->
        In (WARNING_failed (Some i) (BarkSpec.section_of seg) e) (stderr r))
     /\ (exists tail, stdout r = Loading :: BarkSpec.progress 0 segs ++ tail)
     /\ (produced = [] -> aborted r /\ status_of r = SysExit 1)
     /\ (concatenate produced <> [] -> can_save (Bark.disk E) output_path ->
         status_of r = Returned
         /\ exists w ts, wrote r output_path w Bark.SAMPLE_RATE ts)
     /\ (~ can_save (Bark.disk E) output_path ->
         exit_code (status_of r) = 1%Z
         /\ forall w rate ts, ~ wrote r output_path w rate ts))
  /\ (forall E sd,
        Dia.import_ok E = true -> (0 <= Dia.gap_samples_of sd)%Z ->
        Forall DiaSpec.well_formed (default [] (Dia.chunks sd)) ->
        let cs := default [] (Dia.chunks sd) in
        let r := Dia.generate E sd output_path in
        let produced := all_audio (fst (Dia.after_loop E sd)) in
        (forall i c e,
           cs !! i = Some c ->
           Dia.model_generate E i (default "" (Dia.text c)) = Raises e ->
           In (WARNING_failed None (DiaSpec.section_of c) e) (stderr r))
        /\ (exists tail, stdout r = Loading :: DiaSpec.progress 0 cs ++ tail)
        /\ (produced = [] -> aborted r /\ status_of r = SysExit 1)
        /\ (produced <> [] -> can_save (Dia.disk E) output_path ->
            status_of r = Returned
            /\ exists w ts, wrote r output_path w Dia.sample_rate ts)
        /\ (~ can_save (Dia.disk E) output_path ->
            exit_code (status_of r) = 1%Z
            /\ forall w rate ts, ~ wrote r output_path w rate ts)
        /\ (can_save (Dia.disk E) output_path ->
            aborts_exactly_when_empty r produced)).
Proof.
  split.
  - intros E sd Hi Hg segs r produced. subst r.
    rewrite (bark_run output_path E sd Hi Hg).
    destruct (bark_after_loop_prints E sd) as [Ho Hw].
    destruct (save_outcome output_path (Bark.disk E) Bark.SAMPLE_RATE
                (Bark.after_loop E sd)) as [Hempty Hsome].
    split; [|split; [|split; [|split]]].
    + intros i seg e Hseg He.
      destruct (save_stderr (Bark.disk E) Bark.SAMPLE_RATE output_path
                  (Bark.after_loop E sd)) as [l ->].
      apply in_or_app. left. now apply Hw.
    + destruct (save_stdout (Bark.disk E) Bark.SAMPLE_RATE output_path
                  (Bark.after_loop E sd)) as [l ->].
      exists l. now rewrite Ho.
    + intros H. split; now apply Hempty.
    + intros H Hd. destruct (Hsome H Hd) as [Hs [w Hw']]. eauto.
    + apply save_blocked.
  - intros E sd Hi Hg Hwf cs r produced. subst r produced.
    destruct (dia_run output_path E sd Hi Hg Hwf) as [Hn ->].
    destruct (dia_loop_view E (Dia.gap_ms_of sd) (Dia.silence_gap_of sd)
                (length cs) cs 0 (emit_progress Loading (initial [])) Hwf)
      as (Ho & _ & Hw & Hh).
    change (Dia.loop E (Dia.gap_ms_of sd) (Dia.silence_gap_of sd)
              (length cs) 0 cs (emit_progress Loading (initial [])))
      with (Dia.after_loop E sd) in Ho, Hw, Hh.
    set (st := fst (Dia.after_loop E sd)) in *.
    set (produced := all_audio st).
    destruct (save_outcome output_path (Dia.disk E) Dia.sample_rate st)
      as [Hempty Hsome].
    assert (Hhead : headed (all_audio st)) by (apply Hh; now left).
    assert (Hret : produced <> [] -> can_save (Dia.disk E) output_path ->
              status_of (save (Dia.disk E) Dia.sample_rate output_path st)
              = Returned
              /\ exists w ts,
                   wrote (save (Dia.disk E) Dia.sample_rate output_path st)
                     output_path w Dia.sample_rate ts).
    { intros Hne Hd.
      destruct (Hsome (headed_concatenate _ Hhead Hne) Hd) as [Hs [w Hw']].
      eauto. }
    split; [|split; [|split; [|split; [|split]]]].
    + intros i c e Hc He.
      destruct (save_stderr (Dia.disk E) Dia.sample_rate output_path st)
        as [l ->].
      apply in_or_app. left. now apply (Hw i c e).
    + destruct (save_stdout (Dia.disk E) Dia.sample_rate output_path st)
        as [l ->].
      exists l. now rewrite Ho.
    + intros H. split; now apply Hempty.
    + exact Hret.
    + apply save_blocked.
    + intros Hd. split.
      * intros Hab. destruct produced eqn:Hp; [reflexivity|].
        destruct Hret as [Hs _]; [discriminate|exact Hd|].
        now apply aborted_not_returned in Hab.
      * intros H. now apply Hempty.
Qed.

Lemma failed_units_are_skipped_witness :
  (Dia.import_ok Sample.dia_flaky = true
   /\ (0 <= Dia.gap_samples_of Sample.dia_three)%Z
   /\ Forall DiaSpec.well_formed (default [] (Dia.chunks Sample.dia_three))
   /\ Dia.model_generate Sample.dia_flaky 1 "[S2] Hi." = Raises "out of memory"
   /\ can_save (Dia.disk Sample.dia_flaky) "talk.wav"
   /\ In (WARNING_failed None "body" "out of memory")
        (stderr (Dia.generate Sample.dia_flaky Sample.dia_three "talk.wav"))
   /\ status_of (Dia.generate Sample.dia_flaky Sample.dia_three "talk.wav")
      = Returned
   /\ aborts_exactly_when_empty
        (Dia.generate Sample.dia_flaky Sample.dia_three "talk.wav")
        (all_audio (fst (Dia.after_loop Sample.dia_flaky Sample.dia_three))))
  /\ (Bark.import_ok Sample.bark_failing = true
      /\ (0 <= Bark.gap_samples_of Sample.bark_one_section)%Z
      /\ all_audio
           (Bark.after_loop Sample.bark_failing Sample.bark_one_section)
         = []
      /\ In (WARNING_failed (Some 1%nat) "intro" "out of memory")
           (stderr
              (Bark.generate Sample.bark_failing Sample.bark_one_section
                 "talk.wav"))
      /\ aborted
           (Bark.generate Sample.bark_failing Sample.bark_one_section
              "talk.wav")).
Proof.
  assert (Hwf : Forall DiaSpec.well_formed
                  (default [] (Dia.chunks Sample.dia_three))).
  { repeat constructor; eexists; reflexivity. }
  assert (Hg : (0 <= Dia.gap_samples_of Sample.dia_three)%Z)
    by (vm_compute; discriminate).
  assert (Hd : can_save (Dia.disk Sample.dia_flaky) "talk.wav")
    by (repeat split).
  assert (Hg' : (0 <= Bark.gap_samples_of Sample.bark_one_section)%Z)
    by (vm_compute; discriminate).
  split.
  - destruct (proj2 (failed_units_are_skipped "talk.wav") Sample.dia_flaky
                Sample.dia_three eq_refl Hg Hwf)
      as (Hwarn & _ & _ & Hsome & _ & Hiff).
    split; [reflexivity|]. split; [exact Hg|]. split; [exact Hwf|].
    split; [reflexivity|]. split; [exact Hd|].
    split; [exact (Hwarn 1%nat (Sample.chunk "body" "[S2] Hi.")
                     "out of memory" eq_refl eq_refl)|].
    split; [|exact (Hiff Hd)].
    apply Hsome; [vm_compute; discriminate|exact Hd].
  - destruct (proj1 (failed_units_are_skipped "talk.wav") Sample.bark_failing
                Sample.bark_one_section eq_refl Hg')
      as (Hwarn & _ & Hempty & _).
    split; [reflexivity|]. split; [exact Hg'|].
    split; [vm_compute; reflexivity|].
    split; [exact (Hwarn 1%nat (Sample.segment "intro" "Welcome.")
                     "out of memory" eq_refl eq_refl)|].
    apply Hempty. vm_compute; reflexivity.
Defined.

(** C4 as stated fails: a Dia run stopped by a chunk without text is
    aborted although the audio list is not empty. *)
Lemma abort_with_audio_counterexample :
  ~ aborts_exactly_when_empty
      (Dia.generate Sample.dia_ok Sample.dia_missing_text "talk.wav")
      (all_audio (fst (Dia.after_loop Sample.dia_ok Sample.dia_missing_text))).
Proof.
  intros [H _].
  assert (Hab : aborted (Dia.generate Sample.dia_ok Sample.dia_missing_text
                           "talk.wav"))
    by (split; vm_compute; [discriminate|reflexivity]).
  apply H in Hab. vm_compute in Hab. discriminate.
Qed.




(** ** Time never runs backwards *)

Section Ordering.

Lemma ends_by_snoc t ts r :
  (ts_endTime r <= t)%Q -> ends_by t (ts ++ [r]).
Proof.
  intros H. induction ts as [|r' ts IH]; [exact H|].
  simpl. destruct (ts ++ [r]) eqn:Heq; [|exact IH].
  now destruct ts.
Qed.

Lemma ends_by_le t t' ts : ends_by t ts -> (t <= t')%Q -> ends_by t' ts.
Proof.
  intros H Hle. induction ts as [|r ts IH]; [exact I|].
  destruct ts as [|r' ts]; [simpl in *; lra|]. now apply IH.
Qed.

Lemma non_overlapping_snoc ts r :
  non_overlapping ts -> ends_by (ts_startTime r) ts ->
  (ts_startTime r <= ts_endTime r)%Q ->
  non_overlapping (ts ++ [r]).
Proof.
  intros Hts He Hr. induction ts as [|r' ts IH].
  - simpl. auto.
  - destruct Hts as (H1 & H2 & H3).
    destruct ts as [|r'' ts].
    + simpl in *. auto.
    + change ((r' :: r'' :: ts) ++ [r]) with (r' :: (r'' :: ts) ++ [r]).
      split; [exact H1|]. split; [exact H2|]. now apply IH.
Qed.

Lemma bark_inv_initial o : bark_inv (initial o).
Proof. repeat split; simpl; lra. Qed.

Lemma dia_inv_initial o : dia_inv (initial o).
Proof. repeat split. Qed.

Lemma bark_inv_advance d st :
  (0 <= d)%Q -> bark_inv st -> bark_inv (advance d st).
Proof. intros Hd (H1 & H2 & H3). repeat split; simpl; auto; lra. Qed.

Lemma bark_inv_close st cur :
  bark_inv st ->
  non_overlapping
    (timestamps st ++ [ {| ts_sectionId := cur;
                          ts_startTime := section_start_time st;
                          ts_endTime := current_time st |} ]).
Proof. intros (H1 & H2 & H3). now apply non_overlapping_snoc. Qed.

Lemma bark_inv_track gap_ms silence_gap i sid st :
  (0 <= gap_ms)%Q -> bark_inv st ->
  bark_inv (Bark.track_section gap_ms silence_gap i sid st).
Proof.
  intros Hg Hinv. pose proof (gap_seconds_nonneg gap_ms Hg) as Hgap.
  destruct (track_section_cases gap_ms silence_gap i sid st)
    as [[_ ->]|[[_ ->]|(cur & _ & _ & ->)]]; [exact Hinv| |].
  - destruct Hinv as (H1 & H2 & H3). repeat split; simpl; auto.
    + now apply ends_by_le with (section_start_time st).
    + lra.
  - pose proof (bark_inv_close st cur Hinv) as Hc.
    destruct Hinv as (H1 & H2 & H3). repeat split; simpl.
    + exact Hc.
    + apply ends_by_snoc. simpl. lra.
    + lra.
Qed.

Lemma bark_inv_step E gap_ms silence_gap i seg st :
  (0 <= gap_ms)%Q -> bark_inv st ->
  bark_inv (Bark.step E gap_ms silence_gap i seg st).
Proof.
  intros Hg Hinv. rewrite bark_step_unfold. cbv zeta.
  pose proof (bark_inv_track gap_ms silence_gap i
                (BarkSpec.section_of seg) st Hg Hinv) as Ht.
  destruct (BarkSpec.attempt_at E i seg) as [|e|[[|x a]|]];
    try exact Ht.
  apply bark_inv_advance; [|exact Ht].
  apply duration_nonneg. unfold Bark.SAMPLE_RATE. lia.
Qed.

Lemma bark_inv_loop E gap_ms silence_gap segs :
  (0 <= gap_ms)%Q ->
  forall i st, bark_inv st ->
    bark_inv (Bark.loop E gap_ms silence_gap i segs st).
Proof.
  intros Hg. induction segs as [|seg segs IH]; intros i st Hinv;
    [exact Hinv|].
  simpl. apply IH. now apply bark_inv_step.
Qed.

Lemma bark_after_loop_ordered E sd :
  (0 <= Bark.gap_ms_of sd)%Q ->
  non_overlapping (timestamps (Bark.after_loop E sd)).
Proof.
  intros Hg. unfold Bark.after_loop.
  set (st := Bark.loop _ _ _ _ _ _).
  assert (Hinv : bark_inv st)
    by (apply bark_inv_loop; [exact Hg|apply bark_inv_initial]).
  unfold Bark.close_last_section.
  destruct (current_section_id st) as [cur|].
  - now apply bark_inv_close.
  - apply Hinv.
Qed.

Lemma dia_inv_try_chunk E gap_ms silence_gap n i sid txt st :
  (0 <= gap_ms)%Q -> dia_inv st ->
  dia_inv (Dia.try_chunk E gap_ms silence_gap n i sid txt st).
Proof.
  intros Hg [H1 H2]. pose proof (gap_seconds_nonneg gap_ms Hg) as Hgap.
  unfold Dia.try_chunk.
  destruct (Dia.model_generate E i txt) as [e| |[|x a]];
    try (split; assumption).
  cbv zeta.
  pose proof (duration_nonneg Dia.sample_rate (x :: a) ltac:(reflexivity))
    as Hd.
  set (d := duration_of Dia.sample_rate (x :: a)) in *.
  assert (Hno : non_overlapping
            (timestamps st ++ [ {| ts_sectionId := sid;
                                  ts_startTime := current_time st;
                                  ts_endTime := current_time st + d |} ])).
  { apply non_overlapping_snoc; simpl; auto. lra. }
  destruct (Z.of_nat i <? Z.of_nat n - 1)%Z; split; simpl;
    try exact Hno; apply ends_by_snoc; simpl; lra.
Qed.

Lemma dia_inv_step E gap_ms silence_gap n i c st st' :
  (0 <= gap_ms)%Q -> dia_inv st ->
  Dia.step E gap_ms silence_gap n i c st = inl st' -> dia_inv st'.
Proof.
  intros Hg Hinv. unfold Dia.step.
  destruct (Dia.sectionId c) as [sid|]; [|discriminate].
  destruct (Dia.text c) as [txt|]; [|discriminate].
  intros [= <-]. now apply dia_inv_try_chunk.
Qed.

Lemma dia_inv_loop E gap_ms silence_gap n cs :
  (0 <= gap_ms)%Q ->
  forall i st, dia_inv st ->
    dia_inv (fst (Dia.loop E gap_ms silence_gap n i cs st)).
Proof.
  intros Hg. induction cs as [|c cs IH]; intros i st Hinv;
    [exact Hinv|].
  cbn [Dia.loop].
  destruct (Dia.step E gap_ms silence_gap n i c st) as [st'|e] eqn:Hs;
    [|exact Hinv].
  apply IH. eapply dia_inv_step; eauto.
Qed.

(** What a run wrote is what the loop left. *)
Lemma bark_wrote E sd output_path w rate ts :
  wrote (Bark.generate E sd output_path) output_path w rate ts ->
  (0 <= Bark.gap_samples_of sd)%Z /\ ts = timestamps (Bark.after_loop E sd).
Proof.
  intros Hw.
  assert (Hret : status_of (Bark.generate E sd output_path) = Returned)
    by (eapply bark_files; eauto).
  destruct (bark_returned E sd output_path Hret) as (_ & Hg & Heq).
  split; [exact Hg|]. rewrite Heq in *.
  destruct (save_returned _ _ _ _ Hret) as (_ & w' & _ & Hw').
  unfold wrote in *. rewrite Hw in Hw'. congruence.
Qed.

Lemma dia_wrote E sd output_path w rate ts :
  wrote (Dia.generate E sd output_path) output_path w rate ts ->
  (0 <= Dia.gap_samples_of sd)%Z
  /\ snd (Dia.after_loop E sd) = None
  /\ ts = timestamps (fst (Dia.after_loop E sd)).
Proof.
  intros Hw.
  assert (Hret : status_of (Dia.generate E sd output_path) = Returned)
    by (eapply dia_files; eauto).
  destruct (dia_returned E sd output_path Hret) as (_ & Hg & Hn & Heq).
  split; [exact Hg|]. split; [exact Hn|]. rewrite Heq in *.
  destruct (save_returned _ _ _ _ Hret) as (_ & w' & _ & Hw').
  unfold wrote in *. rewrite Hw in Hw'. congruence.
Qed.

End Ordering.

(** C2 as stated fails: with a gapMs of -0.01 the gap has no sample, so
    nothing stops the run, yet the clock is set back at the change of
    section and the second record starts before the first one ends. *)
Lemma timestamps_overlap_counterexample :
  status_of
    (Bark.generate Sample.bark_ok Sample.bark_negative_gap "talk.wav")
  = Returned
  /\ ~ non_overlapping
         (written_timestamps
            (Bark.generate Sample.bark_ok Sample.bark_negative_gap
               "talk.wav")).
Proof.
  split; [vm_compute; reflexivity|].
  vm_compute. intros (_ & H & _). apply H. reflexivity.
Qed.

(** C2, as the code has it.  For a gapMs that is not negative the records
    written by either script, in output order, each end no earlier than
    they start and no later than the next one starts, whatever the units
    produce.  It is an invariant of the loop: it holds before the first
    iteration and every iteration keeps it. *)
Theorem timestamps_non_overlapping (output_path : string) :
  (forall E sd w rate ts,
     (0 <= Bark.gap_ms_of sd)%Q ->
     wrote (Bark.generate E sd output_path) output_path w rate ts ->
     non_overlapping ts)
  /\ (forall o, bark_inv (initial o))
  /\ (forall E gap_ms silence_gap i seg st,
        (0 <= gap_ms)%Q -> bark_inv st ->
        bark_inv (Bark.step E gap_ms silence_gap i seg st))
  /\ (forall E sd w rate ts,
        (0 <= Dia.gap_ms_of sd)%Q ->
        wrote (Dia.generate E sd output_path) output_path w rate ts ->
        non_overlapping ts)
  /\ (forall o, dia_inv (initial o))
  /\ (forall E gap_ms silence_gap n i c st st',
        (0 <= gap_ms)%Q -> dia_inv st ->
        Dia.step E gap_ms silence_gap n i c st = inl st' -> dia_inv st').
Proof.
  split; [|split; [|split; [|split; [|split]]]].
  - intros E sd w rate ts Hg Hw.
    destruct (bark_wrote E sd output_path w rate ts Hw) as [_ ->].
    now apply bark_after_loop_ordered.
  - apply bark_inv_initial.
  - intros. now apply bark_inv_step.
  - intros E sd w rate ts Hg Hw.
    destruct (dia_wrote E sd output_path w rate ts Hw) as (_ & _ & ->).
    unfold Dia.after_loop.
    apply dia_inv_loop; [exact Hg|apply dia_inv_initial].
  - apply dia_inv_initial.
  - intros. eapply dia_inv_step; eauto.
Qed.

Lemma timestamps_non_overlapping_witness :
  (0 <= Bark.gap_ms_of Sample.bark_script)%Q
  /\ wrote (Bark.generate Sample.bark_ok Sample.bark_script "talk.wav")
       "talk.wav"
       (written_samples
          (Bark.generate Sample.bark_ok Sample.bark_script "talk.wav"))
       Bark.SAMPLE_RATE
       (written_timestamps
          (Bark.generate Sample.bark_ok Sample.bark_script "talk.wav"))
  /\ non_overlapping
       (written_timestamps
          (Bark.generate Sample.bark_ok Sample.bark_script "talk.wav")).
Proof.
  assert (Hg : (0 <= Bark.gap_ms_of Sample.bark_script)%Q)
    by (vm_compute; discriminate).
  assert (H : wrote
                (Bark.generate Sample.bark_ok Sample.bark_script "talk.wav")
                "talk.wav"
                (written_samples
                   (Bark.generate Sample.bark_ok Sample.bark_script
                      "talk.wav"))
                Bark.SAMPLE_RATE
                (written_timestamps
                   (Bark.generate Sample.bark_ok Sample.bark_script
                      "talk.wav")))
    by (vm_compute; reflexivity).
  split; [exact Hg|]. split; [exact H|].
  exact (proj1 (timestamps_non_overlapping "talk.wav") _ _ _ _ _ Hg H).
Defined.

(** ** Where the gaps go *)

Section BarkGaps.

Import Bark BarkSpec.

Variables (E : env) (gap_ms : Q) (silence_gap : list Q).

Lemma bark_step_audio i seg st :
  all_audio (step E gap_ms silence_gap i seg st)
  = all_audio st ++ gap_part silence_gap i seg st ++ speech_part E i seg
  /\ current_section_id (step E gap_ms silence_gap i seg st)
     = Some (section_of seg).
Proof.
  rewrite bark_step_unfold. cbv zeta.
  unfold gap_part, speech_part, unit_audio.
  destruct (track_section_cases gap_ms silence_gap i (section_of seg) st)
    as [[Hc ->]|[[Hc ->]|(cur & Hc & Hne & ->)]]; rewrite Hc.
  - destruct (decide (section_of seg = section_of seg)) as [_|Hd];
      [|congruence].
    destruct (attempt_at E i seg) as [|e|[[|x a]|]]; simpl;
      rewrite ?app_nil_r; auto.
  - destruct (attempt_at E i seg) as [|e|[[|x a]|]]; simpl;
      rewrite ?app_nil_r; auto.
  - destruct (decide (cur = section_of seg)) as [Hd|_]; [congruence|].
    destruct (attempt_at E i seg) as [|e|[[|x a]|]]; simpl;
      rewrite <- ?app_assoc; auto.
Qed.

Lemma in_gap_part k g i seg st :
  In (Gap k g) (gap_part silence_gap i seg st) ->
  k = i /\ g = silence_gap /\ exists cur,
    current_section_id st = Some cur /\ cur <> section_of seg.
Proof.
  unfold gap_part. destruct (current_section_id st) as [cur|]; [|intros []].
  destruct (decide (cur = section_of seg)); [intros []|].
  intros [[= <- <-]|[]]. eauto.
Qed.

Lemma in_speech_part j a i seg :
  In (Speech j a) (speech_part E i seg) ->
  j = i /\ speech_part E i seg = [Speech i a].
Proof.
  unfold speech_part. destruct (unit_audio E i seg); [|intros []].
  intros [[= <- <-]|[]]. auto.
Qed.

Lemma speech_not_gap_part j a i seg st :
  ~ In (Speech j a) (gap_part silence_gap i seg st).
Proof.
  unfold gap_part. destruct (current_section_id st); [|intros []].
  destruct (decide _); [intros []|]. intros [H|[]]. discriminate.
Qed.

Lemma gap_not_speech_part k g i seg :
  ~ In (Gap k g) (speech_part E i seg).
Proof.
  unfold speech_part. destruct (unit_audio E i seg); [|intros []].
  intros [H|[]]. discriminate.
Qed.

Lemma gap_inv_step sec n seg st :
  gap_inv sec n st -> sec n = Some (section_of seg) ->
  gap_inv sec (S n) (step E gap_ms silence_gap n seg st).
Proof.
  intros ([Hgap Hadj] & Hlt & Hlast & Hcur) Hsec.
  destruct (bark_step_audio n seg st) as [Haa Hc].
  unfold gap_inv. rewrite Haa, Hc. clear Haa Hc.
  set (gp := gap_part silence_gap n seg st).
  set (sp := speech_part E n seg).
  assert (Hspeech : forall j a,
            In (Speech j a) (all_audio st ++ gp ++ sp) ->
            In (Speech j a) (all_audio st)
            \/ (j = n /\ sp = [Speech n a])).
  { intros j a [H|[H|H]%in_app_or]%in_app_or; [now left| |].
    - now apply speech_not_gap_part in H.
    - right. now apply in_speech_part. }
  split; [split|split; [|split]].
  - intros k g [H|[H|H]%in_app_or]%in_app_or.
    + now apply (Hgap k g).
    + apply in_gap_part in H as (-> & _ & cur & Hcs & Hne).
      destruct n as [|m]; [congruence|].
      destruct Hcur as [Hm _]. split; [lia|].
      replace (S m - 1)%nat with m by lia.
      rewrite <- Hm, Hcs, Hsec. congruence.
    + now apply gap_not_speech_part in H.
  - intros i a b Ha Hb Hsame.
    apply Hspeech in Ha as [Ha|[-> Ha]];
      apply Hspeech in Hb as [Hb|[Hi Hb]].
    + destruct (Hadj i a b Ha Hb Hsame) as (l1 & l2 & ->).
      exists l1, (l2 ++ gp ++ sp). now rewrite <- app_assoc.
    + subst n.
      destruct (Hlast i a eq_refl Ha) as [l Hl].
      destruct Hcur as [Hci _].
      assert (Hgp : gp = []).
      { subst gp. unfold gap_part.
        rewrite Hci, Hsame, Hsec.
        destruct (decide (section_of seg = section_of seg));
          [reflexivity|congruence]. }
      rewrite Hgp, Hb, Hl. exists l, []. simpl.
      now rewrite <- app_assoc.
    + apply Hlt in Hb. lia.
    + lia.
  - intros j a Hj. apply Hspeech in Hj as [Hj|[-> _]]; [|lia].
    apply Hlt in Hj. lia.
  - intros m a [= <-] Hm. apply Hspeech in Hm as [Hm|[_ Hsp]].
    + apply Hlt in Hm. lia.
    + rewrite Hsp. exists (all_audio st ++ gp). now rewrite <- app_assoc.
  - rewrite Hsec. split; [reflexivity|discriminate].
Qed.

Lemma gap_inv_loop sec segs :
  forall n st,
    gap_inv sec n st ->
    (forall k seg,
       segs !! k = Some seg -> sec (n + k)%nat = Some (section_of seg)) ->
    gap_inv sec (n + length segs) (loop E gap_ms silence_gap n segs st).
Proof.
  induction segs as [|seg segs IH]; intros n st Hinv Hsec.
  - simpl. now rewrite Nat.add_0_r.
  - simpl. replace (n + S (length segs))%nat
      with (S n + length segs)%nat by lia.
    apply IH.
    + apply gap_inv_step; [exact Hinv|].
      specialize (Hsec 0%nat seg eq_refl). now rewrite Nat.add_0_r in Hsec.
    + intros k seg' Hk.
      replace (S n + k)%nat with (n + S k)%nat by lia.
      now apply Hsec.
Qed.

Lemma gap_samples_loop segs :
  forall n st,
    (forall k g, In (Gap k g) (all_audio st) -> g = silence_gap) ->
    forall k g,
      In (Gap k g) (all_audio (loop E gap_ms silence_gap n segs st)) ->
      g = silence_gap.
Proof.
  induction segs as [|seg segs IH]; intros n st Hst; [exact Hst|].
  simpl. apply IH. intros k g.
  destruct (bark_step_audio n seg st) as [-> _].
  intros [H|[H|H]%in_app_or]%in_app_or.
  - eapply Hst; eauto.
  - now apply in_gap_part in H as (_ & -> & _).
  - now apply gap_not_speech_part in H.
Qed.

Lemma bark_loop_layout segs :
  forall i st,
    all_audio (loop E gap_ms silence_gap i segs st)
    = all_audio st ++ layout E silence_gap (current_section_id st) i segs.
Proof.
  induction segs as [|seg segs IH]; intros i st.
  - simpl. now rewrite app_nil_r.
  - cbn [loop layout]. rewrite IH.
    destruct (bark_step_audio i seg st) as [-> ->].
    unfold gap_part. now rewrite <- !app_assoc.
Qed.

Lemma bark_loop_audio_prefix segs :
  forall i st,
    exists l,
      all_audio (loop E gap_ms silence_gap i segs st) = all_audio st ++ l.
Proof.
  induction segs as [|seg segs IH]; intros i st.
  - exists []. simpl. now rewrite app_nil_r.
  - simpl. destruct (IH (S i) (step E gap_ms silence_gap i seg st)) as [l ->].
    destruct (bark_step_audio i seg st) as [-> _].
    eexists. rewrite <- app_assoc. reflexivity.
Qed.

Lemma bark_loop_gap_at segs :
  forall i st k s1 s2,
    segs !! k = Some s1 -> segs !! S k = Some s2 ->
    section_of s1 <> section_of s2 ->
    In (Gap (i + S k) silence_gap)
      (all_audio (loop E gap_ms silence_gap i segs st)).
Proof.
  induction segs as [|seg segs IH]; intros i st k s1 s2 H1 H2 Hne;
    [discriminate|].
  destruct k as [|k].
  - simpl in H1. injection H1 as ->.
    destruct segs as [|seg' segs]; [discriminate|].
    simpl in H2. injection H2 as ->. cbn [loop].
    destruct (bark_loop_audio_prefix segs (S (S i))
                (step E gap_ms silence_gap (S i) s2
                   (step E gap_ms silence_gap i s1 st))) as [l ->].
    apply in_or_app. left.
    destruct (bark_step_audio (S i) s2
                (step E gap_ms silence_gap i s1 st)) as [-> _].
    destruct (bark_step_audio i s1 st) as [_ Hc].
    apply in_or_app. right. apply in_or_app. left.
    unfold gap_part. rewrite Hc.
    destruct (decide (section_of s1 = section_of s2)); [contradiction|].
    replace (i + 1)%nat with (S i) by lia. now left.
  - simpl in H1, H2. cbn [loop].
    replace (i + S (S k))%nat with (S i + S k)%nat by lia.
    eapply IH; eauto.
Qed.

End BarkGaps.

Section DiaGaps.

Import Dia DiaSpec.

Variables (E : env) (gap_ms : Q) (silence_gap : list Q) (n : nat).

Lemma dia_try_chunk_audio i c st :
  all_audio
    (try_chunk E gap_ms silence_gap n i (section_of c)
       (default "" (text c)) st)
  = all_audio st ++ pieces_of E silence_gap n i c.
Proof.
  unfold try_chunk, pieces_of, unit_audio.
  destruct (model_generate E i (default "" (text c))) as [e| |[|x a]];
    simpl; rewrite ?app_nil_r; try reflexivity.
  destruct (Z.of_nat i <? Z.of_nat n - 1)%Z; simpl;
    now rewrite <- ?app_assoc.
Qed.

Lemma dia_loop_audio cs :
  forall i st,
    Forall well_formed cs ->
    all_audio (fst (loop E gap_ms silence_gap n i cs st))
    = all_audio st ++ layout E silence_gap n i cs.
Proof.
  induction cs as [|c cs IH]; intros i st Hwf; simpl.
  - now rewrite app_nil_r.
  - inversion Hwf as [|? ? Hc Hcs]; subst.
    rewrite dia_step_well_formed by exact Hc.
    rewrite IH by exact Hcs. rewrite dia_try_chunk_audio. simpl.
    now rewrite <- app_assoc.
Qed.

(** Two chunks in a row that both produce audio have a gap between
    them. *)
Lemma layout_gap cs :
  forall i k c c' a b,
    (i + length cs <= n)%nat ->
    cs !! k = Some c -> cs !! S k = Some c' ->
    unit_audio E (i + k) c = Some a ->
    unit_audio E (i + S k) c' = Some b ->
    exists l1 l2,
      layout E silence_gap n i cs
      = l1 ++ Speech (i + k) a :: Gap (S (i + k)) silence_gap
           :: Speech (i + S k) b :: l2.
Proof.
  induction cs as [|c0 cs IH]; intros i k c c' a b Hlen Hk Hk' Ha Hb;
    [discriminate|].
  destruct k as [|k].
  - simpl in Hk, Hk'. injection Hk as ->.
    destruct cs as [|c1 cs]; [discriminate|].
    simpl in Hk'. injection Hk' as ->.
    rewrite Nat.add_0_r in *. replace (i + 1)%nat with (S i) in * by lia.
    cbn [layout]. unfold pieces_of at 1 2. rewrite Ha, Hb.
    assert (Hi : (Z.of_nat i <? Z.of_nat n - 1)%Z = true)
      by (apply Z.ltb_lt; simpl in Hlen; lia).
    rewrite Hi. exists []. eexists. simpl. reflexivity.
  - simpl in Hk, Hk', Hlen.
    replace (i + S k)%nat with (S i + k)%nat in * by lia.
    replace (i + S (S k))%nat with (S i + S k)%nat in * by lia.
    destruct (IH (S i) k c c' a b ltac:(lia) Hk Hk' Ha Hb)
      as (l1 & l2 & Hl).
    cbn [layout]. rewrite Hl.
    exists (pieces_of E silence_gap n i c0 ++ l1), l2.
    now rewrite <- app_assoc.
Qed.

(** A chunk that produces audio and is not the last of the script has a
    gap right after its audio. *)
Lemma layout_gap_after cs :
  forall i k c a,
    cs !! k = Some c -> unit_audio E (i + k) c = Some a ->
    (S (i + k) < n)%nat ->
    exists l1 l2,
      layout E silence_gap n i cs
      = l1 ++ Speech (i + k) a :: Gap (S (i + k)) silence_gap :: l2.
Proof.
  induction cs as [|c0 cs IH]; intros i k c a Hk Ha Hlt; [discriminate|].
  destruct k as [|k].
  - simpl in Hk. injection Hk as ->. rewrite Nat.add_0_r in *.
    cbn [layout]. unfold pieces_of at 1. rewrite Ha.
    assert (Hi : (Z.of_nat i <? Z.of_nat n - 1)%Z = true)
      by (apply Z.ltb_lt; lia).
    rewrite Hi. exists []. eexists. simpl. reflexivity.
  - simpl in Hk.
    replace (i + S k)%nat with (S i + k)%nat in * by lia.
    destruct (IH (S i) k c a Hk Ha Hlt) as (l1 & l2 & Hl).
    cbn [layout]. rewrite Hl.
    exists (pieces_of E silence_gap n i c0 ++ l1), l2.
    now rewrite <- app_assoc.
Qed.

(** The audio of the last chunk of the script, if it has any, is the last
    piece. *)
Lemma layout_last cs :
  forall i c a,
    (i + length cs = n)%nat ->
    last cs = Some c -> unit_audio E (n - 1) c = Some a ->
    exists l1, layout E silence_gap n i cs = l1 ++ [Speech (n - 1) a].
Proof.
  induction cs as [|c0 cs IH]; intros i c a Hlen Hlast Ha; [discriminate|].
  destruct cs as [|c1 cs].
  - simpl in Hlast, Hlen. injection Hlast as ->.
    replace (n - 1)%nat with i in * by lia.
    cbn [layout]. unfold pieces_of. rewrite Ha.
    assert (Hi : (Z.of_nat i <? Z.of_nat n - 1)%Z = false)
      by (apply Z.ltb_ge; lia).
    rewrite Hi. exists []. reflexivity.
  - destruct (IH (S i) c a) as [l1 Hl];
      [simpl in *; lia|exact Hlast|exact Ha|].
    cbn [layout] in Hl |- *. rewrite Hl.
    exists (pieces_of E silence_gap n i c0 ++ l1).
    now rewrite <- app_assoc.
Qed.

(** Every gap stands right after the audio of the chunk before it. *)
Lemma layout_gap_before cs :
  forall i k g,
    In (Gap k g) (layout E silence_gap n i cs) ->
    g = silence_gap
    /\ exists j c a l1 l2,
         k = S (i + j) /\ cs !! j = Some c
         /\ unit_audio E (i + j) c = Some a
         /\ layout E silence_gap n i cs
            = l1 ++ Speech (i + j) a :: Gap k g :: l2.
Proof.
  induction cs as [|c0 cs IH]; intros i k g Hin; [contradiction|].
  cbn [layout] in Hin |- *. apply in_app_or in Hin as [Hin|Hin].
  - unfold pieces_of in Hin |- *.
    destruct (unit_audio E i c0) as [a|] eqn:Ha; [|contradiction].
    destruct (Z.of_nat i <? Z.of_nat n - 1)%Z;
      simpl in Hin; destruct Hin as [Hin|Hin]; try discriminate;
      try contradiction.
    destruct Hin as [Hin|[]]. injection Hin as <- <-.
    split; [reflexivity|].
    exists 0%nat, c0, a, [], (layout E silence_gap n (S i) cs).
    rewrite Nat.add_0_r. repeat split; auto.
  - destruct (IH (S i) k g Hin) as (-> & j & c & a & l1 & l2 & -> & Hj & Ha & Hl).
    split; [reflexivity|].
    exists (S j), c, a, (pieces_of E silence_gap n i c0 ++ l1), l2.
    replace (i + S j)%nat with (S i + j)%nat by lia.
    repeat split; auto. rewrite Hl. now rewrite <- app_assoc.
Qed.

End DiaGaps.

(** C3, as the code has it.  In the Bark script the audio list is, segment
    by segment, a gap if the section changes and then the audio of the
    segment if it has any: the gaps stand only at the boundary between two
    consecutive segments of different sections, every such boundary has
    its gap, every gap is the silence of gapMs, and the audio of two
    consecutive segments of one section is adjacent.  In the Dia script the
    audio list is, chunk by chunk, the audio of the chunk followed by a gap
    unless the chunk is the last of the script, for the chunks that
    produce audio: a gap of gapMs follows the audio of every such chunk
    but the script's last, every gap stands right after the audio of the
    chunk before it, and two consecutive chunks that both produce audio
    have a gap between them whatever their sections. *)
Theorem gaps_between_sections :
  (forall E sd,
     let segs := default [] (Bark.segments sd) in
     let pieces := all_audio (Bark.after_loop E sd) in
     pieces = BarkSpec.layout E (Bark.silence_gap_of sd) None 0 segs
     /\ gaps_only_between_sections (BarkSpec.sec segs) pieces
     /\ (forall k g, In (Gap k g) pieces -> g = Bark.silence_gap_of sd)
     /\ (forall k s1 s2,
           segs !! k = Some s1 -> segs !! S k = Some s2 ->
           BarkSpec.section_of s1 <> BarkSpec.section_of s2 ->
           In (Gap (S k) (Bark.silence_gap_of sd)) pieces))
  /\ (forall E sd,
        let cs := default [] (Dia.chunks sd) in
        let pieces := all_audio (fst (Dia.after_loop E sd)) in
        Forall DiaSpec.well_formed cs ->
        pieces = DiaSpec.layout E (Dia.silence_gap_of sd) (length cs) 0 cs
        /\ (forall i c a,
              cs !! i = Some c -> DiaSpec.unit_audio E i c = Some a ->
              (S i < length cs)%nat ->
              exists l1 l2,
                pieces
                = l1 ++ Speech i a :: Gap (S i) (Dia.silence_gap_of sd) :: l2)
        /\ (forall c a,
              last cs = Some c ->
              DiaSpec.unit_audio E (length cs - 1) c = Some a ->
              exists l1, pieces = l1 ++ [Speech (length cs - 1) a])
        /\ (forall k g,
              In (Gap k g) pieces ->
              g = Dia.silence_gap_of sd
              /\ exists j c a l1 l2,
                   k = S j /\ cs !! j = Some c
                   /\ DiaSpec.unit_audio E j c = Some a
                   /\ pieces = l1 ++ Speech j a :: Gap k g :: l2)
        /\ (forall i c c' a b,
              cs !! i = Some c -> cs !! S i = Some c' ->
              DiaSpec.unit_audio E i c = Some a ->
              DiaSpec.unit_audio E (S i) c' = Some b ->
              exists l1 l2,
                pieces
                = l1 ++ Speech i a :: Gap (S i) (Dia.silence_gap_of sd)
                     :: Speech (S i) b :: l2)).
Proof.
  split.
  - intros E sd segs pieces. subst pieces. unfold Bark.after_loop.
    fold segs.
    set (st := Bark.loop _ _ _ _ _ _).
    destruct (close_last_section_prints st) as (_ & _ & ->).
    split; [|split; [|split]].
    + subst st. now rewrite bark_loop_layout.
    + assert (Hinv : gap_inv (BarkSpec.sec segs) (0 + length segs) st).
      { apply gap_inv_loop.
        - repeat split; intros; simpl in *; try contradiction;
            discriminate.
        - intros k seg Hk. unfold BarkSpec.sec. simpl. now rewrite Hk. }
      apply Hinv.
    + subst st. apply gap_samples_loop. intros k g [].
    + intros k s1 s2 H1 H2 Hne. subst st.
      apply (bark_loop_gap_at E (Bark.gap_ms_of sd) (Bark.silence_gap_of sd)
               segs 0 _ k s1 s2 H1 H2 Hne).
  - intros E sd cs pieces Hwf. subst pieces. unfold Dia.after_loop.
    fold cs. rewrite dia_loop_audio by exact Hwf. simpl.
    split; [reflexivity|]. split; [|split; [|split]].
    + intros i c a Hc Ha Hlt.
      apply (layout_gap_after E (Dia.silence_gap_of sd) (length cs) cs
               0 i c a); auto.
    + intros c a Hlast Ha.
      apply (layout_last E (Dia.silence_gap_of sd) (length cs) cs 0 c a);
        auto.
    + intros k g Hin.
      destruct (layout_gap_before E (Dia.silence_gap_of sd) (length cs) cs
                  0 k g Hin) as (Hg & j & c & a & l1 & l2 & Hk & Hj & Ha & Hl).
      split; [exact Hg|]. exists j, c, a, l1, l2. auto.
    + intros i c c' a b Hc Hc' Ha Hb.
      apply (layout_gap E (Dia.silence_gap_of sd) (length cs) cs 0 i c c' a b);
        auto.
Qed.

Lemma gaps_between_sections_witness :
  Forall DiaSpec.well_formed (default [] (Dia.chunks Sample.dia_three))
  /\ DiaSpec.unit_audio Sample.dia_flaky 0 (Sample.chunk "intro" "[S1] Hello.")
     = Some Sample.tone
  /\ DiaSpec.unit_audio Sample.dia_flaky 1 (Sample.chunk "body" "[S2] Hi.")
     = None
  /\ (exists l1 l2,
        all_audio (fst (Dia.after_loop Sample.dia_flaky Sample.dia_three))
        = l1 ++ Speech 0 Sample.tone
             :: Gap 1 (Dia.silence_gap_of Sample.dia_three) :: l2)
  /\ exists l1,
       all_audio (fst (Dia.after_loop Sample.dia_flaky Sample.dia_three))
       = l1 ++ [Speech 2 Sample.tone].
Proof.
  assert (Hwf : Forall DiaSpec.well_formed
                  (default [] (Dia.chunks Sample.dia_three))).
  { repeat constructor; eexists; reflexivity. }
  destruct (proj2 gaps_between_sections Sample.dia_flaky Sample.dia_three Hwf)
    as (_ & Hafter & Hlast & _).
  split; [exact Hwf|]. split; [reflexivity|]. split; [reflexivity|].
  split.
  - exact (Hafter 0%nat (Sample.chunk "intro" "[S1] Hello.") Sample.tone
             eq_refl eq_refl ltac:(simpl; lia)).
  - exact (Hlast (Sample.chunk "outro" "[S1] Bye.") Sample.tone
             eq_refl eq_refl).
Defined.

(** C3 as stated fails in the Dia script: two chunks of one section have a
    gap between them. *)
Lemma gap_within_section_counterexample :
  ~ gaps_only_between_sections
      (DiaSpec.sec (default [] (Dia.chunks Sample.dia_same_section)))
      (all_audio (fst (Dia.after_loop Sample.dia_ok Sample.dia_same_section))).
Proof.
  intros [H _].
  destruct (H 1%nat (Dia.silence_gap_of Sample.dia_same_section))
    as [_ Hne].
  - vm_compute. right. left. reflexivity.
  - apply Hne. reflexivity.
Qed.

(** ** One record per run *)

Section Records.

Lemma ts_eq_refl_list ts : Forall2 ts_eq ts ts.
Proof.
  induction ts; constructor; [|assumption].
  repeat split; reflexivity.
Qed.

Lemma ts_eq_trans_list ts1 :
  forall ts2 ts3,
    Forall2 ts_eq ts1 ts2 -> Forall2 ts_eq ts2 ts3 -> Forall2 ts_eq ts1 ts3.
Proof.
  induction ts1 as [|r ts1 IH]; intros ts2 ts3 H12 H23.
  - inversion H12; subst. inversion H23; subst. constructor.
  - inversion H12 as [|? r2 ? ts2' Hr12 Ht12]; subst.
    inversion H23 as [|? r3 ? ts3' Hr23 Ht23]; subst.
    constructor; [|eapply IH; eauto].
    destruct Hr12 as (Ha & Hb & Hc), Hr23 as (Ha' & Hb' & Hc').
    repeat split; [congruence|now rewrite Hb|now rewrite Hc].
Qed.

Lemma unit_eq_refl_list us : Forall2 unit_eq us us.
Proof.
  induction us; constructor; [|assumption]. split; reflexivity.
Qed.

Lemma runs_head s d us :
  exists total rs, runs ((s, d) :: us) = (s, total) :: rs.
Proof.
  simpl. destruct (runs us) as [|[s' total] rs]; [eauto|].
  destruct (String.eqb s s'); eauto.
Qed.

Lemma runs_cons_other c x s d us :
  c <> s -> runs ((c, x) :: (s, d) :: us) = (c, x) :: runs ((s, d) :: us).
Proof.
  intros Hne. destruct (runs_head s d us) as (total & rs & Hr).
  change (runs ((c, x) :: (s, d) :: us))
    with (match runs ((s, d) :: us) with
          | (s', total) :: rs =>
              if String.eqb c s' then (c, (x + total)%Q) :: rs
              else (c, x) :: (s', total) :: rs
          | [] => [(c, x)]
          end).
  rewrite Hr. apply String.eqb_neq in Hne. now rewrite Hne.
Qed.

Lemma runs_head_proper c x x' us :
  (x == x')%Q -> Forall2 unit_eq (runs ((c, x) :: us)) (runs ((c, x') :: us)).
Proof.
  intros Hx. simpl. destruct (runs us) as [|[s' total] rs].
  - constructor; [split; [reflexivity|exact Hx]|constructor].
  - destruct (String.eqb c s').
    + constructor; [|apply unit_eq_refl_list].
      split; [reflexivity|]. simpl. now rewrite Hx.
    + constructor; [split; [reflexivity|exact Hx]|].
      apply unit_eq_refl_list.
Qed.

Lemma runs_merge c x d y us :
  (y == x + d)%Q ->
  Forall2 unit_eq (runs ((c, y) :: us)) (runs ((c, x) :: (c, d) :: us)).
Proof.
  intros Hy.
  change (runs ((c, x) :: (c, d) :: us))
    with (match runs ((c, d) :: us) with
          | (s', total) :: rs =>
              if String.eqb c s' then (c, (x + total)%Q) :: rs
              else (c, x) :: (s', total) :: rs
          | [] => [(c, x)]
          end).
  simpl. destruct (runs us) as [|[s' total] rs].
  - rewrite String.eqb_refl.
    constructor; [split; [reflexivity|exact Hy]|constructor].
  - destruct (String.eqb c s') eqn:Hcs; rewrite String.eqb_refl.
    + constructor; [|apply unit_eq_refl_list].
      split; [reflexivity|]. simpl. rewrite Hy. ring.
    + constructor; [split; [reflexivity|exact Hy]|].
      apply unit_eq_refl_list.
Qed.

Lemma run_records_proper gap rs :
  forall rs' t t',
    Forall2 unit_eq rs rs' -> (t == t')%Q ->
    Forall2 ts_eq (run_records gap t rs) (run_records gap t' rs').
Proof.
  induction rs as [|[s total] rs IH]; intros rs' t t' Hrs Ht.
  { inversion Hrs; subst. constructor. }
  inversion Hrs as [|? u ? rs'' Hu Hrest]; subst.
  destruct u as [s' total']. destruct Hu as [Hs Htot].
  simpl in Hs, Htot. subst s'. simpl. constructor.
  - repeat split; simpl; [exact Ht|now rewrite Ht, Htot].
  - apply IH; [exact Hrest|]. now rewrite Ht, Htot.
Qed.

Lemma runs_no_repeat us : no_repeat (map fst us) -> runs us = us.
Proof.
  induction us as [|[s d] us IH]; [reflexivity|].
  destruct us as [|[s' d'] us]; [reflexivity|].
  intros [Hne Hrest]. simpl in Hne. specialize (IH Hrest).
  change (runs ((s, d) :: (s', d') :: us))
    with (match runs ((s', d') :: us) with
          | (s'', total) :: rs =>
              if String.eqb s s'' then (s, (d + total)%Q) :: rs
              else (s, d) :: (s'', total) :: rs
          | [] => [(s, d)]
          end).
  rewrite IH. apply String.eqb_neq in Hne. now rewrite Hne.
Qed.

End Records.

Section BarkRecords.

Import Bark BarkSpec.

Variables (E : env) (gap_ms : Q) (silence_gap : list Q).

Let gap : Q := gap_ms / 1000.

(** What an iteration does to the records and the clock. *)
Lemma bark_step_times i seg st :
  let st' := step E gap_ms silence_gap i seg st in
  let d := unit_duration E i seg in
  match current_section_id st with
  | None =>
      timestamps st' = timestamps st
      /\ section_start_time st' = current_time st
      /\ (current_time st' == current_time st + d)%Q
  | Some c =>
      if decide (c = section_of seg) then
        timestamps st' = timestamps st
        /\ section_start_time st' = section_start_time st
        /\ (current_time st' == current_time st + d)%Q
      else
        timestamps st'
        = timestamps st ++ [ {| ts_sectionId := c;
                                ts_startTime := section_start_time st;
                                ts_endTime := current_time st |} ]
        /\ section_start_time st' = (current_time st + gap)%Q
        /\ (current_time st' == current_time st + gap + d)%Q
  end.
Proof.
  cbv zeta. rewrite bark_step_unfold. cbv zeta.
  unfold unit_duration, unit_audio.
  destruct (track_section_cases gap_ms silence_gap i (section_of seg) st)
    as [[Hc ->]|[[Hc ->]|(cur & Hc & Hne & ->)]]; rewrite Hc.
  - destruct (decide (section_of seg = section_of seg)) as [_|Hd];
      [|congruence].
    destruct (attempt_at E i seg) as [|e|[[|x a]|]]; cbn [timestamps section_start_time current_time advance append_audio
           print_stderr emit_progress open_section append_timestamp];
      repeat split; try reflexivity; unfold gap; ring.
  - destruct (attempt_at E i seg) as [|e|[[|x a]|]]; cbn [timestamps section_start_time current_time advance append_audio
           print_stderr emit_progress open_section append_timestamp];
      repeat split; try reflexivity; unfold gap; ring.
  - destruct (decide (cur = section_of seg)) as [Hd|_]; [congruence|].
    destruct (attempt_at E i seg) as [|e|[[|x a]|]]; cbn [timestamps section_start_time current_time advance append_audio
           print_stderr emit_progress open_section append_timestamp];
      repeat split; try reflexivity; unfold gap; ring.
Qed.

Lemma bark_loop_records segs :
  forall i st c s0 t,
    current_section_id st = Some c ->
    (section_start_time st == s0)%Q -> (current_time st == t)%Q ->
    exists recs,
      timestamps (close_last_section (loop E gap_ms silence_gap i segs st))
      = timestamps st ++ recs
      /\ Forall2 ts_eq recs
           (run_records gap s0 (runs ((c, (t - s0)%Q) :: units E i segs))).
Proof.
  induction segs as [|seg segs IH]; intros i st c s0 t Hc Hs Ht.
  - simpl. unfold close_last_section. rewrite Hc. simpl. eexists.
    split; [reflexivity|]. constructor; [|constructor].
    repeat split; simpl; [exact Hs|]. rewrite Ht. ring.
  - cbn [loop units].
    pose proof (bark_step_times i seg st) as Hstep. cbv zeta in Hstep.
    destruct (bark_step_audio E gap_ms silence_gap i seg st) as [_ Hcur].
    rewrite Hc in Hstep.
    set (st' := step E gap_ms silence_gap i seg st) in *.
    set (d := unit_duration E i seg) in *.
    destruct (decide (c = section_of seg)) as [Heq|Hne].
    + destruct Hstep as (Hts & Hst & Htime). rewrite <- Heq in *.
      destruct (IH (S i) st' c s0 (t + d)%Q Hcur) as (recs & Hr & Hrecs).
      * now rewrite Hst.
      * now rewrite Htime, Ht.
      * exists recs. split; [now rewrite Hr, Hts|].
        eapply ts_eq_trans_list; [exact Hrecs|].
        apply run_records_proper; [|reflexivity].
        apply runs_merge. ring.
    + destruct Hstep as (Hts & Hst & Htime).
      destruct (IH (S i) st' (section_of seg) (t + gap)%Q
                  (t + gap + d)%Q Hcur) as (recs & Hr & Hrecs).
      * now rewrite Hst, Ht.
      * now rewrite Htime, Ht.
      * eexists. split; [rewrite Hr, Hts, <- app_assoc; reflexivity|].
        rewrite runs_cons_other by exact Hne. simpl.
        constructor.
        -- repeat split; simpl; [exact Hs|]. rewrite Ht. ring.
        -- eapply ts_eq_trans_list; [exact Hrecs|].
           apply run_records_proper; [|ring].
           apply runs_head_proper. ring.
Qed.

Lemma bark_records segs :
  Forall2 ts_eq
    (timestamps
       (close_last_section
          (loop E gap_ms silence_gap 0 segs
             (emit_progress Loading (initial [])))))
    (run_records gap 0 (runs (units E 0 segs))).
Proof.
  destruct segs as [|seg segs]; [constructor|].
  cbn [loop units].
  pose proof (bark_step_times 0 seg (emit_progress Loading (initial [])))
    as Hstep. cbv zeta in Hstep. simpl in Hstep.
  destruct (bark_step_audio E gap_ms silence_gap 0 seg
              (emit_progress Loading (initial []))) as [_ Hcur].
  destruct Hstep as (Hts & Hst & Htime).
  destruct (bark_loop_records segs 1 _ (section_of seg) 0%Q
              (0 + unit_duration E 0 seg)%Q Hcur) as (recs & Hr & Hrecs).
  - now rewrite Hst.
  - exact Htime.
  - rewrite Hr, Hts. simpl.
    eapply ts_eq_trans_list; [exact Hrecs|].
    apply run_records_proper; [|reflexivity].
    apply runs_head_proper. ring.
Qed.

End BarkRecords.

Section DiaRecords.

Import Dia DiaSpec.

Variables (E : env) (gap_ms : Q) (silence_gap : list Q) (n : nat).

Let gap : Q := gap_ms / 1000.

Lemma dia_loop_none cs :
  forall i st,
    snd (loop E gap_ms silence_gap n i cs st) = None ->
    Forall well_formed cs.
Proof.
  induction cs as [|c cs IH]; intros i st H; [constructor|].
  cbn [loop] in H.
  destruct (step E gap_ms silence_gap n i c st) as [st'|e] eqn:Hs;
    [|discriminate].
  constructor; [|eapply IH; eauto].
  unfold step in Hs. split.
  - destruct (sectionId c); [eauto|discriminate].
  - destruct (sectionId c); [|discriminate].
    destruct (text c); [eauto|discriminate].
Qed.

Lemma dia_loop_records cs :
  forall i st,
    Forall well_formed cs -> (i + length cs <= n)%nat ->
    timestamps (fst (loop E gap_ms silence_gap n i cs st))
    = timestamps st ++ run_records gap (current_time st) (units E i cs).
Proof.
  induction cs as [|c cs IH]; intros i st Hwf Hlen.
  - simpl. now rewrite app_nil_r.
  - inversion Hwf as [|? ? Hc Hcs]; subst. cbn [loop units].
    rewrite dia_step_well_formed by exact Hc.
    simpl in Hlen. rewrite IH by (auto; lia).
    unfold try_chunk, unit_audio.
    destruct (model_generate E i (default "" (text c))) as [e| |[|x a]];
      try reflexivity.
    cbv zeta.
    destruct (Z.of_nat i <? Z.of_nat n - 1)%Z eqn:Hi; simpl;
      rewrite <- app_assoc; simpl; [reflexivity|].
    apply Z.ltb_ge in Hi. destruct cs; [reflexivity|simpl in Hlen; lia].
Qed.

End DiaRecords.

(** C1 as stated fails in the Dia script: two chunks of one section get a
    record each, where the run they form has one. *)
Lemma one_record_per_run_counterexample :
  ~ one_record_per_run (Dia.gap_ms_of Sample.dia_same_section)
      (DiaSpec.units Sample.dia_ok 0
         (default [] (Dia.chunks Sample.dia_same_section)))
      (written_timestamps
         (Dia.generate Sample.dia_ok Sample.dia_same_section "talk.wav")).
Proof.
  unfold one_record_per_run. vm_compute. intros H.
  inversion H as [|? ? ? ? _ H']. inversion H'.
Qed.

(** C1, as the code has it.  The Bark script writes one record per
    contiguous run of segments of one section, with the run's section id
    and the times at which the run starts and ends, whatever the segments
    produce.  The Dia script writes one record per chunk that produced
    audio, with the chunk's section id and the times at which its audio
    starts and ends; that is one record per run when no two neighbouring
    chunks that produced audio share a section id. *)
Theorem records_per_run (output_path : string) :
  (forall E sd w rate ts,
     wrote (Bark.generate E sd output_path) output_path w rate ts ->
     one_record_per_run (Bark.gap_ms_of sd)
       (BarkSpec.units E 0 (default [] (Bark.segments sd))) ts)
  /\ (forall E sd w rate ts,
        wrote (Dia.generate E sd output_path) output_path w rate ts ->
        let units := DiaSpec.units E 0 (default [] (Dia.chunks sd)) in
        ts = run_records (Dia.gap_ms_of sd / 1000) 0 units
        /\ (no_repeat (map fst units) ->
            one_record_per_run (Dia.gap_ms_of sd) units ts)).
Proof.
  split.
  - intros E sd w rate ts Hw.
    destruct (bark_wrote E sd output_path w rate ts Hw) as [_ ->].
    apply bark_records.
  - intros E sd w rate ts Hw units.
    destruct (dia_wrote E sd output_path w rate ts Hw) as (_ & Hn & ->).
    assert (Heq : timestamps (fst (Dia.after_loop E sd))
                  = run_records (Dia.gap_ms_of sd / 1000) 0 units).
    { unfold Dia.after_loop in *.
      rewrite dia_loop_records; [reflexivity| |simpl; lia].
      eapply dia_loop_none; eauto. }
    split; [exact Heq|].
    intros Hnr. unfold one_record_per_run.
    rewrite (runs_no_repeat units Hnr), Heq. apply ts_eq_refl_list.
Qed.

Lemma records_per_run_witness :
  wrote (Bark.generate Sample.bark_ok Sample.bark_script "talk.wav")
    "talk.wav"
    (written_samples
       (Bark.generate Sample.bark_ok Sample.bark_script "talk.wav"))
    Bark.SAMPLE_RATE
    (written_timestamps
       (Bark.generate Sample.bark_ok Sample.bark_script "talk.wav"))
  /\ one_record_per_run (Bark.gap_ms_of Sample.bark_script)
       (BarkSpec.units Sample.bark_ok 0
          (default [] (Bark.segments Sample.bark_script)))
       (written_timestamps
          (Bark.generate Sample.bark_ok Sample.bark_script "talk.wav")).
Proof.
  assert (H : wrote
                (Bark.generate Sample.bark_ok Sample.bark_script "talk.wav")
                "talk.wav"
                (written_samples
                   (Bark.generate Sample.bark_ok Sample.bark_script
                      "talk.wav"))
                Bark.SAMPLE_RATE
                (written_timestamps
                   (Bark.generate Sample.bark_ok Sample.bark_script
                      "talk.wav")))
    by (vm_compute; reflexivity).
  split; [exact H|].
  exact (proj1 (records_per_run "talk.wav") _ _ _ _ _ H).
Defined.


(** ** Further properties of the runs *)

Section Protocol.

Variable output_path : string.

Lemma save_stdout_exact D sr st :
  stdout (save D sr output_path st)
  = out st ++ match status_of (save D sr output_path st) with
              | Returned => [Saving; Done]
              | SysExit _ => []
              | Uncaught _ => [Saving]
              end.
Proof.
  rewrite save_unfold. destruct (all_audio st) as [|p ps]; simpl.
  - now rewrite app_nil_r.
  - destruct (max_abs _); simpl; [|reflexivity].
    destruct (negb (soundfile_ok D)); [reflexivity|].
    destruct (negb (sf_write_ok D output_path)); [reflexivity|].
    destruct (negb (open_ok D (timestamps_path output_path)));
      [reflexivity|].
    simpl. now rewrite <- app_assoc.
Qed.

Lemma save_files_exact D sr st :
  (files (save D sr output_path st) = []
   /\ exit_code (status_of (save D sr output_path st)) = 1%Z)
  \/ (open_ok D (timestamps_path output_path) = false
      /\ exit_code (status_of (save D sr output_path st)) = 1%Z
      /\ exists w, files (save D sr output_path st)
                   = [(output_path, Wav w sr)])
  \/ (status_of (save D sr output_path st) = Returned
      /\ exists w,
           wrote (save D sr output_path st) output_path w sr (timestamps st)).
Proof.
  destruct (save_files D sr output_path st)
    as [H|[(Ho & [e He] & w & _ & Hw)|H]].
  - left. split; [exact H|].
    destruct (save_status D sr output_path st) as [Hr|Hc]; [|exact Hc].
    destruct (save_returned D sr output_path st Hr) as (_ & w & _ & Hw).
    unfold wrote in Hw. rewrite H in Hw. discriminate.
  - right; left. split; [exact Ho|]. split; [now rewrite He|eauto].
  - right; right. split; [exact H|].
    destruct (save_returned D sr output_path st H) as (_ & w & _ & Hw).
    eauto.
Qed.

End Protocol.

(** X1. What a run prints on stdout.  A run that does not get to the loop
    (package missing, or a gap with a negative number of samples) prints
    the loading line only.  A run that gets to the loop, over a script with
    all its keys, prints the loading line, one generating line per unit in
    document order, and then nothing more when it exits for lack of audio,
    the saving line when it dies while saving, and the saving and done
    lines when it returns. *)
Theorem stdout_protocol (output_path : string) :
  (forall E sd,
     let r := Bark.generate E sd output_path in
     let lines := Loading
                  :: BarkSpec.progress 0 (default [] (Bark.segments sd)) in
     (Bark.import_ok E = false \/ (Bark.gap_samples_of sd < 0)%Z ->
      stdout r = [Loading])
     /\ (Bark.import_ok E = true -> (0 <= Bark.gap_samples_of sd)%Z ->
         stdout r
         = lines ++ match status_of r with
                    | Returned => [Saving; Done]
                    | SysExit _ => []
                    | Uncaught _ => [Saving]
                    end))
  /\ (forall E sd,
        let r := Dia.generate E sd output_path in
        let lines := Loading
                     :: DiaSpec.progress 0 (default [] (Dia.chunks sd)) in
        (Dia.import_ok E = false \/ (Dia.gap_samples_of sd < 0)%Z ->
         stdout r = [Loading])
        /\ (Dia.import_ok E = true -> (0 <= Dia.gap_samples_of sd)%Z ->
            Forall DiaSpec.well_formed (default [] (Dia.chunks sd)) ->
            stdout r
            = lines ++ match status_of r with
                       | Returned => [Saving; Done]
                       | SysExit _ => []
                       | Uncaught _ => [Saving]
                       end)).
Proof.
  split; intros E sd r lines; subst r lines; split.
  - rewrite bark_generate_unfold. intros [->|Hg]; [reflexivity|].
    apply Z.ltb_lt in Hg. rewrite Hg. now destruct (negb _).
  - intros Hi Hg. rewrite (bark_run output_path E sd Hi Hg).
    rewrite save_stdout_exact.
    now destruct (bark_after_loop_prints E sd) as [-> _].
  - rewrite dia_generate_unfold. intros [->|Hg]; [reflexivity|].
    apply Z.ltb_lt in Hg. rewrite Hg. now destruct (negb _).
  - intros Hi Hg Hwf.
    destruct (dia_run output_path E sd Hi Hg Hwf) as [_ ->].
    rewrite save_stdout_exact.
    destruct (dia_loop_view E (Dia.gap_ms_of sd) (Dia.silence_gap_of sd)
                (length (default [] (Dia.chunks sd)))
                (default [] (Dia.chunks sd)) 0
                (emit_progress Loading (initial [])) Hwf) as (Ho & _).
    unfold Dia.after_loop. now rewrite Ho.
Qed.

Lemma stdout_protocol_witness :
  (0 <= Bark.gap_samples_of Sample.bark_script)%Z
  /\ stdout (Bark.generate Sample.bark_ok Sample.bark_script "talk.wav")
     = [Loading; Generating 0 "intro"; Generating 1 "intro";
        Generating 2 "body"; Saving; Done].
Proof.
  assert (Hg : (0 <= Bark.gap_samples_of Sample.bark_script)%Z)
    by (vm_compute; discriminate).
  split; [exact Hg|].
  rewrite (proj2 (proj1 (stdout_protocol "talk.wav") Sample.bark_ok
                    Sample.bark_script) eq_refl Hg).
  vm_compute. reflexivity.
Defined.

(** X2. What a run leaves on disk, a file counting once the call that
    writes it has completed.  In both scripts the exit code is 0 or 1, and
    a run leaves one of three things behind: no file, with code 1;
    the WAV file alone, with code 1, which happens only when
    [timestamps.json] cannot be opened after the WAV file was written; or
    the WAV file followed by the timestamp file, and then it returned.  The
    timestamp file is never there without the WAV file. *)
Theorem output_files (output_path : string) :
  (forall E sd,
     let r := Bark.generate E sd output_path in
     (files r = [] /\ exit_code (status_of r) = 1%Z)
     \/ (open_ok (Bark.disk E) (timestamps_path output_path) = false
         /\ exit_code (status_of r) = 1%Z
         /\ exists w, files r = [(output_path, Wav w Bark.SAMPLE_RATE)])
     \/ (status_of r = Returned
         /\ exists w ts, wrote r output_path w Bark.SAMPLE_RATE ts))
  /\ (forall E sd,
        let r := Dia.generate E sd output_path in
        (files r = [] /\ exit_code (status_of r) = 1%Z)
        \/ (open_ok (Dia.disk E) (timestamps_path output_path) = false
            /\ exit_code (status_of r) = 1%Z
            /\ exists w, files r = [(output_path, Wav w Dia.sample_rate)])
        \/ (status_of r = Returned
            /\ exists w ts, wrote r output_path w Dia.sample_rate ts)).
Proof.
  split; intros E sd r; subst r.
  - rewrite bark_generate_unfold.
    destruct (negb (Bark.import_ok E)); [left; split; reflexivity|].
    destruct (Bark.gap_samples_of sd <? 0)%Z; [left; split; reflexivity|].
    destruct (save_files_exact output_path (Bark.disk E) Bark.SAMPLE_RATE
                (Bark.after_loop E sd)) as [H|[H|[H [w Hw]]]];
      [now left|now right; left|].
    right; right. eauto.
  - rewrite dia_generate_unfold.
    destruct (negb (Dia.import_ok E)); [left; split; reflexivity|].
    destruct (Dia.gap_samples_of sd <? 0)%Z; [left; split; reflexivity|].
    destruct (Dia.after_loop E sd) as [st [e|]];
      [left; split; reflexivity|].
    destruct (save_files_exact output_path (Dia.disk E) Dia.sample_rate st)
      as [H|[H|[H [w Hw]]]]; [now left|now right; left|].
    right; right. eauto.
Qed.

(** The middle case happens: the WAV file is left alone when
    [timestamps.json] cannot be opened. *)
Lemma wav_without_timestamps :
  let r := Dia.generate
             {| Dia.import_ok := true;
                Dia.model_generate := fun _ _ => Samples Sample.tone;
                Dia.disk := Sample.disk_no_json |}
             Sample.dia_script "talk.wav" in
  status_of r = Uncaught (OSError "timestamps.json")
  /\ map fst (files r) = ["talk.wav"]
  /\ stdout r = [Loading; Generating 0 "intro"; Generating 1 "body"; Saving].
Proof. vm_compute. repeat split. Qed.

(** X3. A script without units.  With the package imported and a gap
    without a negative number of samples, a script whose list of units is
    missing or empty prints the loading line, reports that no audio was
    generated, writes nothing and exits with 1, in both scripts. *)
Theorem empty_script_aborts (output_path : string) :
  (forall E sd,
     Bark.import_ok E = true -> (0 <= Bark.gap_samples_of sd)%Z ->
     default [] (Bark.segments sd) = [] ->
     Bark.generate E sd output_path
     = {| stdout := [Loading]; stderr := [ERROR_no_audio]; files := [];
          status_of := SysExit 1 |})
  /\ (forall E sd,
        Dia.import_ok E = true -> (0 <= Dia.gap_samples_of sd)%Z ->
        default [] (Dia.chunks sd) = [] ->
        Dia.generate E sd output_path
        = {| stdout := [Loading]; stderr := [ERROR_no_audio]; files := [];
             status_of := SysExit 1 |}).
Proof.
  split; intros E sd Hi Hg He.
  - rewrite (bark_run output_path E sd Hi Hg).
    unfold Bark.after_loop. rewrite He. reflexivity.
  - rewrite dia_generate_unfold, Hi. apply Z.ltb_ge in Hg. rewrite Hg.
    unfold Dia.after_loop. rewrite He. reflexivity.
Qed.

Lemma empty_script_aborts_witness :
  Bark.generate Sample.bark_ok
    {| Bark.segments := None; Bark.gapMs := None |} "talk.wav"
  = {| stdout := [Loading]; stderr := [ERROR_no_audio]; files := [];
       status_of := SysExit 1 |}.
Proof.
  apply (proj1 (empty_script_aborts "talk.wav"));
    [reflexivity|vm_compute; discriminate|reflexivity].
Defined.

(** ** Further properties of the normalisation *)

Section Peak.

Lemma fold_max_attained xs a :
  (fold_left Qmax xs a == a)%Q
  \/ exists y, In y xs /\ (fold_left Qmax xs a == y)%Q.
Proof.
  revert a. induction xs as [|x xs IH]; intros a; simpl.
  - left. reflexivity.
  - destruct (IH (Qmax a x)) as [H|(y & Hy & H)].
    + destruct (Q.max_dec a x) as [Hm|Hm].
      * left. now apply Qeq_trans with (Qmax a x).
      * right. exists x. split; [now left|].
        now apply Qeq_trans with (Qmax a x).
    + right. exists y. split; [now right|exact H].
Qed.

Lemma max_abs_attained combined m :
  max_abs combined = Some m ->
  exists x, In x combined /\ (Qabs x == m)%Q.
Proof.
  destruct combined as [|x xs]; [discriminate|]. intros [= <-].
  destruct (fold_max_attained (map Qabs xs) (Qabs x)) as [H|(y & Hy & H)].
  - exists x. split; [now left|now rewrite H].
  - apply in_map_iff in Hy as (x' & <- & Hx').
    exists x'. split; [now right|now rewrite H].
Qed.

Lemma scale_abs m x :
  (0 < m)%Q -> (Qabs (x / m * (95 # 100)) == Qabs x / m * (95 # 100))%Q.
Proof.
  intros Hm. unfold Qdiv. rewrite !Qabs_Qmult.
  rewrite (Qabs_pos (/ m)) by (apply Qlt_le_weak, Qinv_lt_0_compat, Hm).
  rewrite (Qabs_pos (95 # 100)) by discriminate. reflexivity.
Qed.

End Peak.

(** X4. What the normalisation does to the samples.  It keeps their number;
    every sample written is the sample read times one positive factor, so
    silence stays silence and signs are kept; and when the peak is above
    zero, some sample written has absolute value exactly 0.95. *)
Theorem normalize_scales (combined : list Q) (max_val : Q) :
  max_abs combined = Some max_val ->
  length (normalize max_val combined) = length combined
  /\ (exists k, (0 < k)%Q
               /\ Forall2 (fun x y => y == k * x)%Q combined
                    (normalize max_val combined))
  /\ ((0 < max_val)%Q ->
      exists y, In y (normalize max_val combined)
                /\ (Qabs y == 95 # 100)%Q).
Proof.
  intros Hmax. unfold normalize.
  destruct (Qlt_le_dec 0 max_val) as [Hpos|Hle].
  - split; [|split].
    + unfold scale. apply length_map.
    + exists ((95 # 100) / max_val)%Q. split.
      * apply Qlt_shift_div_l; [exact Hpos|]. rewrite Qmult_0_l. reflexivity.
      * unfold scale. clear Hmax.
        induction combined as [|x xs IH]; constructor; [|exact IH].
        field. intros H. rewrite H in Hpos. discriminate.
    + intros _. destruct (max_abs_attained _ _ Hmax) as (x & Hx & Hm).
      exists (x / max_val * (95 # 100))%Q. split.
      * unfold scale. apply in_map_iff. exists x. auto.
      * rewrite scale_abs by exact Hpos. rewrite Hm. field.
        intros H. rewrite H in Hpos. discriminate.
  - split; [reflexivity|]. split.
    + exists 1%Q. split; [reflexivity|]. clear Hmax.
      induction combined as [|x xs IH]; constructor; [ring|exact IH].
    + intros Hpos. lra.
Qed.

Lemma normalize_scales_witness :
  max_abs Sample.tone = Some (1 # 2)
  /\ exists y, In y (normalize (1 # 2) Sample.tone)
               /\ (Qabs y == 95 # 100)%Q.
Proof.
  split; [reflexivity|].
  apply (proj2 (proj2 (normalize_scales Sample.tone (1 # 2) eq_refl))).
  reflexivity.
Defined.

(** ** The clock and the audio *)

Section Clock.









End Clock.

Section BarkClock.

Import Bark BarkSpec.

Variables (E : env) (gap_ms : Q) (silence_gap : list Q).

Hypothesis silence_is_gap :
  (duration_of SAMPLE_RATE silence_gap == gap_ms / 1000)%Q.





End BarkClock.

Section Totals.

Variable output_path : string.

(** What the two files and the last line of stderr are made of. *)
Lemma save_wrote_parts D sr st w rate ts :
  wrote (save D sr output_path st) output_path w rate ts ->
  all_audio st <> []
  /\ (exists max_val,
        max_abs (concatenate (all_audio st)) = Some max_val
        /\ w = normalize max_val (concatenate (all_audio st)))
  /\ ts = timestamps st
  /\ stderr (save D sr output_path st)
     = err st ++ [Summary (length (timestamps st)) (current_time st)].
Proof.
  unfold wrote. rewrite save_unfold.
  destruct (all_audio st) as [|p ps] eqn:Haa; [discriminate|].
  destruct (max_abs (concatenate (p :: ps))) as [m|]; [|discriminate].
  destruct (negb (soundfile_ok D)); [discriminate|].
  destruct (negb (sf_write_ok D output_path)); [discriminate|].
  destruct (negb (open_ok D (timestamps_path output_path)));
    [discriminate|].
  simpl. intros [= <- <- <-]. repeat split; eauto; try discriminate.
Qed.





End Totals.



(** ** The section ids of the Bark records *)

Section RecordIds.

Lemma map_fst_runs us : map fst (runs us) = compress (map fst us).
Proof.
  induction us as [|[s d] us IH]; [reflexivity|].
  simpl. rewrite <- IH.
  destruct (runs us) as [|[s' total] rs]; [reflexivity|].
  simpl. now destruct (String.eqb s s').
Qed.

Lemma compress_no_repeat ids : no_repeat (compress ids).
Proof.
  induction ids as [|s ids IH]; [exact I|].
  simpl. destruct (compress ids) as [|s' r]; [exact I|].
  destruct (String.eqb s s') eqn:Hs.
  - apply String.eqb_eq in Hs. now subst s'.
  - apply String.eqb_neq in Hs. split; assumption.
Qed.

Lemma compress_length ids : (length (compress ids) <= length ids)%nat.
Proof.
  induction ids as [|s ids IH]; [reflexivity|].
  simpl. destruct (compress ids) as [|s' r]; [simpl; lia|].
  destruct (String.eqb s s'); simpl in *; lia.
Qed.

Lemma run_records_ids gap rs :
  forall t, map ts_sectionId (run_records gap t rs) = map fst rs.
Proof.
  induction rs as [|[s total] rs IH]; intros t; [reflexivity|].
  simpl. now rewrite IH.
Qed.

Lemma ts_eq_ids ts ts' :
  Forall2 ts_eq ts ts' -> map ts_sectionId ts = map ts_sectionId ts'.
Proof.
  induction 1 as [|r r' ts ts' [Hr _] _ IH]; [reflexivity|].
  simpl. now rewrite Hr, IH.
Qed.

Lemma bark_units_ids E segs :
  forall i, map fst (BarkSpec.units E i segs) = map BarkSpec.section_of segs.
Proof.
  induction segs as [|seg segs IH]; intros i; [reflexivity|].
  simpl. now rewrite IH.
Qed.

Lemma run_records_length gap rs :
  forall t, length (run_records gap t rs) = length rs.
Proof.
  induction rs as [|[s total] rs IH]; intros t; [reflexivity|].
  simpl. now rewrite IH.
Qed.

Lemma bark_after_loop_ids E sd :
  map ts_sectionId (timestamps (Bark.after_loop E sd))
  = compress (map BarkSpec.section_of (default [] (Bark.segments sd))).
Proof.
  unfold Bark.after_loop.
  rewrite (ts_eq_ids _ _ (bark_records E (Bark.gap_ms_of sd)
                            (Bark.silence_gap_of sd)
                            (default [] (Bark.segments sd)))).
  now rewrite run_records_ids, map_fst_runs, bark_units_ids.
Qed.

Lemma progress_lookup segs :
  forall i k seg,
    segs !! k = Some seg ->
    In (Generating (i + k) (BarkSpec.section_of seg))
      (BarkSpec.progress i segs).
Proof.
  induction segs as [|s0 segs IH]; intros i k seg Hk; [discriminate|].
  destruct k as [|k]; simpl in Hk |- *.
  - injection Hk as ->. rewrite Nat.add_0_r. now left.
  - right. replace (i + S k)%nat with (S i + k)%nat by lia. now apply IH.
Qed.

End RecordIds.

(** X6. The summary line counts the records.  When a run has written its
    files, the last line of stderr is the summary line and the number of
    sections it gives is the number of records written: in the Bark script
    the number of runs of consecutive segments of one section, in the Dia
    script the number of chunks that produced audio.  (The total the line
    gives is printed with one decimal; nothing is said about it here.) *)
Theorem summary_counts_records (output_path : string) :
  (forall E sd w rate ts,
     wrote (Bark.generate E sd output_path) output_path w rate ts ->
     (exists l total,
        stderr (Bark.generate E sd output_path)
        = l ++ [Summary (length ts) total])
     /\ length ts
        = length (compress (map BarkSpec.section_of
                              (default [] (Bark.segments sd)))))
  /\ (forall E sd w rate ts,
        wrote (Dia.generate E sd output_path) output_path w rate ts ->
        (exists l total,
           stderr (Dia.generate E sd output_path)
           = l ++ [Summary (length ts) total])
        /\ length ts
           = length (DiaSpec.units E 0 (default [] (Dia.chunks sd)))).
Proof.
  split; intros E sd w rate ts Hw.
  - assert (Hret : status_of (Bark.generate E sd output_path) = Returned)
      by (eapply bark_files; eauto).
    destruct (bark_returned E sd output_path Hret) as (_ & _ & Heq).
    rewrite Heq in *.
    destruct (save_wrote_parts output_path _ _ _ _ _ _ Hw)
      as (_ & _ & -> & Herr).
    split; [eauto|].
    now rewrite <- (length_map ts_sectionId), bark_after_loop_ids.
  - assert (Hret : status_of (Dia.generate E sd output_path) = Returned)
      by (eapply dia_files; eauto).
    destruct (dia_returned E sd output_path Hret) as (_ & _ & Hn & Heq).
    rewrite Heq in *.
    destruct (save_wrote_parts output_path _ _ _ _ _ _ Hw)
      as (_ & _ & -> & Herr).
    split; [eauto|].
    unfold Dia.after_loop in *.
    rewrite dia_loop_records; [|eapply dia_loop_none; eauto|simpl; lia].
    simpl. apply run_records_length.
Qed.

Lemma summary_counts_records_witness :
  (exists l total,
     stderr (Bark.generate Sample.bark_ok Sample.bark_script "talk.wav")
     = l ++ [Summary
               (length
                  (written_timestamps
                     (Bark.generate Sample.bark_ok Sample.bark_script
                        "talk.wav")))
               total])
  /\ length
       (written_timestamps
          (Bark.generate Sample.bark_ok Sample.bark_script "talk.wav"))
     = 2%nat.
Proof.
  assert (H : wrote
                (Bark.generate Sample.bark_ok Sample.bark_script "talk.wav")
                "talk.wav"
                (written_samples
                   (Bark.generate Sample.bark_ok Sample.bark_script
                      "talk.wav"))
                Bark.SAMPLE_RATE
                (written_timestamps
                   (Bark.generate Sample.bark_ok Sample.bark_script
                      "talk.wav")))
    by (vm_compute; reflexivity).
  destruct (proj1 (summary_counts_records "talk.wav") _ _ _ _ _ H)
    as [Hs Hl].
  split; [exact Hs|]. rewrite Hl. reflexivity.
Defined.

(** X7. The section ids of the Bark records depend on the script alone.
    The records written carry, in order, the section ids of the segments
    with every run of equal neighbours reduced to one, whatever the model
    returns or raises; so no two neighbouring records have the same section
    id, and there are never more records than segments. *)
Theorem bark_record_ids (output_path : string) :
  forall E sd w rate ts,
    wrote (Bark.generate E sd output_path) output_path w rate ts ->
    let ids := map BarkSpec.section_of (default [] (Bark.segments sd)) in
    map ts_sectionId ts = compress ids
    /\ no_repeat (map ts_sectionId ts)
    /\ (length ts <= length (default [] (Bark.segments sd)))%nat.
Proof.
  intros E sd w rate ts Hw ids.
  destruct (bark_wrote E sd output_path w rate ts Hw) as [_ ->].
  assert (Hids : map ts_sectionId (timestamps (Bark.after_loop E sd))
                 = compress ids).
  { unfold Bark.after_loop.
    rewrite (ts_eq_ids _ _ (bark_records E (Bark.gap_ms_of sd)
                              (Bark.silence_gap_of sd)
                              (default [] (Bark.segments sd)))).
    now rewrite run_records_ids, map_fst_runs, bark_units_ids. }
  split; [exact Hids|]. split.
  - rewrite Hids. apply compress_no_repeat.
  - rewrite <- (length_map ts_sectionId), Hids.
    etransitivity; [apply compress_length|].
    subst ids. now rewrite length_map.
Qed.

Lemma bark_record_ids_witness :
  map ts_sectionId
    (written_timestamps
       (Bark.generate Sample.bark_ok Sample.bark_script "talk.wav"))
  = ["intro"; "body"].
Proof.
  assert (H : wrote
                (Bark.generate Sample.bark_ok Sample.bark_script "talk.wav")
                "talk.wav"
                (written_samples
                   (Bark.generate Sample.bark_ok Sample.bark_script
                      "talk.wav"))
                Bark.SAMPLE_RATE
                (written_timestamps
                   (Bark.generate Sample.bark_ok Sample.bark_script
                      "talk.wav")))
    by (vm_compute; reflexivity).
  rewrite (proj1 (bark_record_ids "talk.wav" _ _ _ _ _ H)).
  reflexivity.
Defined.

(** ** Which segments are skipped *)

Section Skipping.

Import Bark BarkSpec.

Lemma emotion_lookup k v :
  EMOTION_MAP !! k = Some v ->
  In (k, v)
    [ ("laughs", "[laughter]"); ("laughter", "[laughter]");
      ("pauses", ""); ("pause", "");
      ("sighs", "[sighs]"); ("sigh", "[sighs]");
      ("gasps", "[gasps]"); ("gasp", "[gasps]") ].
Proof.
  intros H. apply list_elem_of_In.
  now apply elem_of_list_to_map_2 in H.
Qed.

Lemma token_truthy k text :
  Py.truthy (default "" (EMOTION_MAP !! k)) = true ->
  In k token_directions
  /\ Py.blank (default "" (EMOTION_MAP !! k) +:+ " " +:+ text) = false.
Proof.
  destruct (EMOTION_MAP !! k) as [v|] eqn:Hl; [|discriminate].
  apply emotion_lookup in Hl. simpl in Hl |- *.
  unfold token_directions.
  repeat (destruct Hl as [Hl|Hl];
          [injection Hl as <- <-; intros Ht; simpl in Ht;
           first [discriminate Ht|split; [simpl; tauto|reflexivity]]|]).
  contradiction.
Qed.

Lemma token_directions_truthy k :
  In k token_directions ->
  Py.truthy (default "" (EMOTION_MAP !! k)) = true.
Proof.
  unfold token_directions. simpl.
  intros [<-|[<-|[<-|[<-|[<-|[<-|[]]]]]]]; reflexivity.
Qed.

Lemma attempt_of_not_skipped s : attempt_of s <> Skipped.
Proof. destruct s; discriminate. Qed.

End Skipping.

(** X8. Which segments the Bark loop passes over without a call of the
    model.  The [try] block ends at its [continue] exactly when the text is
    blank and the direction stands for no Bark token: a blank segment with
    no direction, an unknown one or a pause is skipped, while a blank
    segment with a laugh, sigh or gasp still goes to the model. *)
Theorem skipped_iff_blank_without_token E i speaker_preset text direction :
  Bark.try_segment E i speaker_preset text direction = Bark.Skipped
  <-> Py.blank text = true /\ ~ has_token direction.
Proof.
  unfold Bark.try_segment, Bark.process_text, has_token.
  destruct direction as [d|].
  - destruct (Py.truthy d) eqn:Hd.
    + destruct (Py.truthy (default "" (Bark.EMOTION_MAP !! Py.lower d)))
        eqn:Ht.
      * destruct (token_truthy (Py.lower d) text Ht) as [Hin ->].
        split.
        -- destruct (Bark.is_pause (Some d)).
           ++ destruct (negb (Py.blank text)); [|discriminate].
              destruct (Bark.generate_audio _ _ _ _); discriminate.
           ++ intros H. now apply attempt_of_not_skipped in H.
        -- intros [_ Hn]. exfalso. apply Hn. eauto.
      * assert (Hno : ~ (exists d0, Some d = Some d0
                                    /\ In (Py.lower d0) token_directions)).
        { intros (d0 & [= <-] & Hin).
          apply token_directions_truthy in Hin. congruence. }
        destruct (Py.blank text) eqn:Hb; [tauto|].
        split; [|intros [? _]; discriminate].
        destruct (Bark.is_pause (Some d)).
        -- simpl. destruct (Bark.generate_audio _ _ _ _); discriminate.
        -- intros H. now apply attempt_of_not_skipped in H.
    + assert (Hno : ~ (exists d0, Some d = Some d0
                                  /\ In (Py.lower d0) token_directions)).
      { intros (d0 & [= <-] & Hin). destruct d; [|discriminate].
        simpl in Hin. unfold token_directions in Hin. simpl in Hin.
        intuition discriminate. }
      assert (Hp : Bark.is_pause (Some d) = false)
        by (unfold Bark.is_pause; now rewrite Hd).
      rewrite Hp. destruct (Py.blank text); [tauto|].
      split; [|intros [? _]; discriminate].
      intros H. now apply attempt_of_not_skipped in H.
  - assert (Hno : ~ (exists d0, @None string = Some d0
                                /\ In (Py.lower d0) token_directions))
      by (intros (d0 & ? & _); discriminate).
    simpl. destruct (Py.blank text); [tauto|].
    split; [|intros [? _]; discriminate].
    intros H. now apply attempt_of_not_skipped in H.
Qed.

(** ** A Bark run without any speech *)

Section Silent.

Import Bark BarkSpec.

Variables (E : env) (gap_ms : Q) (silence_gap : list Q).




End Silent.



(** X10. A pause with text after it.  For a segment whose direction is a
    pause, in any case, and whose text is not blank, the model is given the
    text as it is, and: when it returns samples, the segment adds 500 ms of
    silence followed by them; when it returns nothing, the segment still
    adds the 500 ms of silence; when it raises, the segment adds nothing
    and the [try] block ends in the handler. *)
Theorem pause_outcomes E i (seg : Bark.segment) d :
  Bark.direction seg = Some d -> Bark.is_pause (Some d) = true ->
  Py.blank (default "" (Bark.text seg)) = false ->
  match Bark.generate_audio E i (default "" (Bark.text seg))
          (default "v2/en_speaker_0" (Bark.speakerPreset seg)) with
  | Samples a =>
      BarkSpec.unit_audio E i seg = Some (zeros 12000 ++ a)
      /\ (BarkSpec.unit_duration E i seg
          == (1 # 2) + duration_of Bark.SAMPLE_RATE a)%Q
  | NoAudio =>
      BarkSpec.unit_audio E i seg = Some (zeros 12000)
      /\ (BarkSpec.unit_duration E i seg == 1 # 2)%Q
  | Raises e =>
      BarkSpec.unit_audio E i seg = None
      /\ BarkSpec.attempt_at E i seg = Bark.Raised e
  end.
Proof.
  intros Hd Hp Hb.
  unfold BarkSpec.unit_duration, BarkSpec.unit_audio, BarkSpec.attempt_at,
    Bark.try_segment.
  rewrite Hd, (process_text_pause _ _ Hp), Hb, Hp. simpl negb. cbv iota.
  destruct (Bark.generate_audio E i (default "" (Bark.text seg))
              (default "v2/en_speaker_0" (Bark.speakerPreset seg)))
    as [e| |a].
  - split; reflexivity.
  - split; reflexivity.
  - change (zeros Bark.pause_samples) with (zeros 12000).
    assert (Hz : exists x zs, zeros 12000 = x :: zs)
      by (unfold zeros; destruct (Z.to_nat 12000) eqn:Hn;
          [discriminate|simpl; eauto]).
    destruct Hz as (x & zs & Hz). rewrite Hz. simpl.
    change (x :: zs ++ a) with ((x :: zs) ++ a). rewrite <- Hz.
    split; [reflexivity|].
    unfold duration_of, Bark.SAMPLE_RATE. rewrite length_app.
    unfold zeros at 1. rewrite repeat_length.
    rewrite Nat2Z.inj_add, inject_Z_plus, Z2Nat.id by lia. field.
Qed.

Lemma pause_outcomes_witness :
  BarkSpec.unit_audio Sample.bark_ok 0
    {| Bark.sectionId := Some "intro"; Bark.speakerPreset := None;
       Bark.text := Some "Well."; Bark.direction := Some "Pauses" |}
  = Some (zeros 12000 ++ Sample.tone).
Proof.
  exact (proj1 (pause_outcomes Sample.bark_ok 0
                  {| Bark.sectionId := Some "intro";
                     Bark.speakerPreset := None;
                     Bark.text := Some "Well.";
                     Bark.direction := Some "Pauses" |}
                  "Pauses" eq_refl eq_refl eq_refl)).
Defined.

(** ** Missing fields, once more *)

(** C10. In the Dia script a chunk without "sectionId" or "text" makes the
    loop body raise [KeyError] outside the [try], and a run over a script
    holding such a chunk ends with a code other than 0 and no file written.
    In the Bark script the missing fields stand for their defaults: the run
    is the run of the script with the defaults written out and never ends
    on a [KeyError]; a script without gapMs has gaps of 400 ms, 9600
    samples; every segment is announced on stdout in document order, a
    segment without sectionId as "unknown", whatever fields the segments
    before it lack; and the records written carry "unknown" for the
    segments without sectionId.  In one iteration, a segment without
    sectionId is announced and tracked as section "unknown", a segment
    without text and direction is passed over after the section
    bookkeeping, and a segment without speakerPreset goes to the model with
    "v2/en_speaker_0". *)
Theorem missing_fields :
  (forall E sd output_path c,
     In c (default [] (Dia.chunks sd)) ->
     Dia.sectionId c = None \/ Dia.text c = None ->
     (forall gap_ms silence_gap n i st,
        exists k, Dia.step E gap_ms silence_gap n i c st = inr (KeyError k))
     /\ aborted (Dia.generate E sd output_path)
     /\ (Dia.import_ok E = true -> (0 <= Dia.gap_samples_of sd)%Z ->
         exists k,
           status_of (Dia.generate E sd output_path) = Uncaught (KeyError k)))
  /\ (forall E sd output_path,
        let segs := default [] (Bark.segments sd) in
        let r := Bark.generate E sd output_path in
        r = Bark.generate E (BarkSpec.with_defaults sd) output_path
        /\ (forall k, status_of r <> Uncaught (KeyError k))
        /\ (Bark.gapMs sd = None ->
            Bark.gap_ms_of sd = 400%Q /\ Bark.gap_samples_of sd = 9600%Z)
        /\ (Bark.import_ok E = true -> (0 <= Bark.gap_samples_of sd)%Z ->
            (exists tail,
               stdout r = Loading :: BarkSpec.progress 0 segs ++ tail)
            /\ forall i seg,
                 segs !! i = Some seg -> Bark.sectionId seg = None ->
                 In (Generating i "unknown") (stdout r))
        /\ (forall w rate ts,
              wrote r output_path w rate ts ->
              map ts_sectionId ts
              = compress
                  (map (fun seg => default "unknown" (Bark.sectionId seg))
                     segs)))
  /\ (forall E gap_ms silence_gap i seg st,
        let st' := Bark.step E gap_ms silence_gap i seg st in
        (Bark.sectionId seg = None ->
         out st' = out st ++ [Generating i "unknown"]
         /\ current_section_id st' = Some "unknown")
        /\ (Bark.text seg = None -> Bark.direction seg = None ->
            st'
            = emit_progress (Generating i (BarkSpec.section_of seg))
                (Bark.track_section gap_ms silence_gap i
                   (BarkSpec.section_of seg) st))
        /\ (Bark.speakerPreset seg = None ->
            BarkSpec.attempt_at E i seg
            = Bark.try_segment E i "v2/en_speaker_0"
                (default "" (Bark.text seg)) (Bark.direction seg))).
Proof.
  split; [|split].
  - intros E sd output_path c Hin Hc. split; [|split].
    + intros. now apply dia_step_key_error.
    + rewrite dia_generate_unfold.
      destruct (negb (Dia.import_ok E)); [split; [discriminate|reflexivity]|].
      destruct (Dia.gap_samples_of sd <? 0)%Z;
        [split; [discriminate|reflexivity]|].
      unfold Dia.after_loop.
      edestruct dia_loop_key_error as (st' & k & ->);
        [apply Exists_exists; exists c; split;
           [now apply list_elem_of_In|exact Hc]|].
      split; [discriminate|reflexivity].
    + intros Himp Hgap. rewrite dia_generate_unfold, Himp. simpl.
      apply Z.ltb_ge in Hgap. rewrite Hgap. unfold Dia.after_loop.
      edestruct dia_loop_key_error as (st' & k & ->);
        [apply Exists_exists; exists c; split;
           [now apply list_elem_of_In|exact Hc]|].
      now exists k.
  - intros E sd output_path segs r. subst r.
    split; [|split; [|split; [|split]]].
    + rewrite !bark_generate_unfold.
      change (Bark.gap_samples_of (BarkSpec.with_defaults sd))
        with (Bark.gap_samples_of sd).
      replace (Bark.after_loop E (BarkSpec.with_defaults sd))
        with (Bark.after_loop E sd); [reflexivity|].
      unfold Bark.after_loop.
      change (default [] (Bark.segments (BarkSpec.with_defaults sd)))
        with (map BarkSpec.fill (default [] (Bark.segments sd))).
      now rewrite bark_loop_fill.
    + apply bark_no_key_error.
    + intros Hn. unfold Bark.gap_samples_of, Bark.gap_ms_of. rewrite Hn.
      split; reflexivity.
    + intros Hi Hg.
      assert (Hout : exists tail,
                stdout (Bark.generate E sd output_path)
                = Loading :: BarkSpec.progress 0 segs ++ tail).
      { rewrite (bark_run output_path E sd Hi Hg).
        destruct (save_stdout (Bark.disk E) Bark.SAMPLE_RATE output_path
                    (Bark.after_loop E sd)) as [l ->].
        destruct (bark_after_loop_prints E sd) as [-> _]. now exists l. }
      split; [exact Hout|].
      intros i seg Hseg Hsid. destruct Hout as [tail ->].
      right. apply in_or_app. left.
      pose proof (progress_lookup segs 0 i seg Hseg) as Hp.
      unfold BarkSpec.section_of in Hp. rewrite Hsid in Hp. exact Hp.
    + intros w rate ts Hw.
      destruct (bark_wrote E sd output_path w rate ts Hw) as [_ ->].
      apply bark_after_loop_ids.
  - intros E gap_ms silence_gap i seg st st'. subst st'.
    split; [|split].
    + intros Hsid.
      destruct (bark_step_audio E gap_ms silence_gap i seg st) as [_ Hc].
      rewrite bark_step_out, Hc. unfold BarkSpec.section_of.
      rewrite Hsid. split; reflexivity.
    + intros Ht Hd. rewrite bark_step_unfold. cbv zeta.
      unfold BarkSpec.attempt_at. rewrite Ht, Hd. reflexivity.
    + intros Hp. unfold BarkSpec.attempt_at. now rewrite Hp.
Qed.

Lemma missing_fields_witness :
  (In {| Dia.sectionId := Some "body"; Dia.text := None |}
     (default [] (Dia.chunks Sample.dia_missing_text))
   /\ aborted (Dia.generate Sample.dia_ok Sample.dia_missing_text "talk.wav")
   /\ exists k,
        status_of
          (Dia.generate Sample.dia_ok Sample.dia_missing_text "talk.wav")
        = Uncaught (KeyError k))
  /\ (Bark.import_ok Sample.bark_ok = true
      /\ (0 <= Bark.gap_samples_of Sample.bark_bare)%Z
      /\ Bark.gap_ms_of Sample.bark_bare = 400%Q
      /\ (exists tail,
            stdout (Bark.generate Sample.bark_ok Sample.bark_bare "talk.wav")
            = [Loading; Generating 0 "unknown"; Generating 1 "unknown";
               Generating 2 "body"] ++ tail)
      /\ map ts_sectionId
           (written_timestamps
              (Bark.generate Sample.bark_ok Sample.bark_bare "talk.wav"))
         = ["unknown"; "body"]).
Proof.
  assert (Hin : In {| Dia.sectionId := Some "body"; Dia.text := None |}
                  (default [] (Dia.chunks Sample.dia_missing_text)))
    by (right; left; reflexivity).
  assert (Hg : (0 <= Bark.gap_samples_of Sample.bark_bare)%Z)
    by (vm_compute; discriminate).
  assert (Hw : wrote
                 (Bark.generate Sample.bark_ok Sample.bark_bare "talk.wav")
                 "talk.wav"
                 (written_samples
                    (Bark.generate Sample.bark_ok Sample.bark_bare
                       "talk.wav"))
                 Bark.SAMPLE_RATE
                 (written_timestamps
                    (Bark.generate Sample.bark_ok Sample.bark_bare
                       "talk.wav")))
    by (vm_compute; reflexivity).
  split.
  - split; [exact Hin|].
    destruct (proj1 missing_fields Sample.dia_ok Sample.dia_missing_text
                "talk.wav" _ Hin (or_intror eq_refl)) as (_ & Hab & Hk).
    split; [exact Hab|].
    apply Hk; [reflexivity|vm_compute; discriminate].
  - destruct (proj1 (proj2 missing_fields) Sample.bark_ok Sample.bark_bare
                "talk.wav") as (_ & _ & Hgap & Hout & Hids).
    split; [reflexivity|]. split; [exact Hg|].
    split; [exact (proj1 (Hgap eq_refl))|].
    split; [exact (proj1 (Hout eq_refl Hg))|].
    rewrite (Hids _ _ _ Hw). reflexivity.
Defined.
